(** * A shallow embedding of the syntax tree, the fold framework, the printer
      and the line splitter of the compiler front end.

    Sources embedded here:
    - [src/ast.ts]     : tree shapes, operator tables, [tyIsUnit], folders;
    - [src/printer.ts] : [printAst] and friends, [printTy];
    - [src/error.ts]   : [Span], [lines].

    Conventions.  A JavaScript [number] that holds an index, an id, an
    offset or an integer literal is an integer [Z]; a JavaScript string is
    a [string] whose characters stand for its code units; an optional
    field [f?: T] is an [option T]; a function that may [throw] returns a
    [result]. *)

From Stdlib Require Import ZArith List String Ascii Bool Lia Sorted.
From Stdlib Require Import DecimalString.
Import ListNotations.

Open Scope string_scope.
Open Scope list_scope.
Open Scope Z_scope.

Infix "+:+" := String.append (at level 60, right associativity).

(* ================================================================== *)
(** * error.ts : spans *)

Definition number := Z.

Record Span := mkSpan { start : number; end_ : number }.

Definition DUMMY_SPAN : Span := mkSpan 0 0.

(* ================================================================== *)
(** * ast.ts : the data model *)

Inductive Resolution :=
| ResLocal (index : number)
| ResItem (index : number)
| ResBuiltin (name : string).

Record Identifier := mkIdentifier {
  ident_name : string;
  ident_span : Span;
  ident_res : option Resolution
}.

Inductive Literal :=
| LitStr (value : string)
| LitInt (value : number).

Inductive BinaryKind :=
| BkAdd | BkSub | BkMul | BkDiv | BkAnd | BkOr
| BkLt | BkGt | BkEq | BkLe | BkGe | BkNe.

Inductive UnaryKind := UkNot | UkNeg.

Unset Elimination Schemes.

(** Semantic types. [TyUnit] of the source is the shape
    [{kind: "tuple", elems: []}], that is [TyTuple []]. *)
Inductive Ty :=
| TyString
| TyInt
| TyBool
| TyList (elem : Ty)
| TyTuple (elems : list Ty)
| TyFn (params : list Ty) (returnTy : Ty)
| TyVar (index : number).

(** Written types: [Type = TypeKind & { span; ty? }]. *)
Inductive Type_ :=
| mkType (kind : TypeKind) (span : Span) (ty : option Ty)
with TypeKind :=
| TypeIdent (value : Identifier)
| TypeList (elem : Type_)
| TypeTuple (elems : list Type_).

(** Expressions: [Expr = ExprKind & { span; ty? }]. *)
Inductive Expr :=
| mkExpr (kind : ExprKind) (span : Span) (ty : option Ty)
with ExprKind :=
| ExprEmpty
| ExprLet (name : string) (type : option Type_) (rhs after : Expr)
| ExprBlock (exprs : list Expr)
| ExprLiteral (value : Literal)
| ExprIdent (value : Identifier)
| ExprBinary (binaryKind : BinaryKind) (lhs rhs : Expr)
| ExprUnary (unaryKind : UnaryKind) (rhs : Expr)
| ExprCall (lhs : Expr) (args : list Expr)
| ExprIf (cond then_ : Expr) (else_ : option Expr).

Set Elimination Schemes.

Definition Type_kind (t : Type_) : TypeKind := let (k, _, _) := t in k.
Definition Type_span (t : Type_) : Span := let (_, s, _) := t in s.
Definition Type_ty (t : Type_) : option Ty := let (_, _, ty) := t in ty.

Definition Expr_kind (e : Expr) : ExprKind := let (k, _, _) := e in k.
Definition Expr_span (e : Expr) : Span := let (_, s, _) := e in s.
Definition Expr_ty (e : Expr) : option Ty := let (_, _, ty) := e in ty.

Record FunctionArg := mkFunctionArg {
  arg_name : string;
  arg_type : Type_;
  arg_span : Span
}.

Record FunctionDef := mkFunctionDef {
  fn_name : string;
  fn_args : list FunctionArg;
  fn_body : Expr;
  fn_returnType : option Type_
}.

Inductive ItemKind :=
| ItemFunction (node : FunctionDef).

Record Item := mkItem {
  item_kind : ItemKind;
  item_span : Span;
  item_id : number
}.

Definition Ast := list Item.

(* ------------------------------------------------------------------ *)
(** ** Induction principles for the nested trees *)

Section Ty_induction.
Variable P : Ty -> Prop.
Hypothesis P_string : P TyString.
Hypothesis P_int : P TyInt.
Hypothesis P_bool : P TyBool.
Hypothesis P_list : forall elem, P elem -> P (TyList elem).
Hypothesis P_tuple : forall elems, Forall P elems -> P (TyTuple elems).
Hypothesis P_fn : forall params returnTy,
    Forall P params -> P returnTy -> P (TyFn params returnTy).
Hypothesis P_var : forall index, P (TyVar index).

Fixpoint Ty_ind (t : Ty) : P t :=
  let all := fix all (l : list Ty) : Forall P l :=
    match l with
    | [] => Forall_nil P
    | x :: l' => Forall_cons x (Ty_ind x) (all l')
    end in
  match t with
  | TyString => P_string
  | TyInt => P_int
  | TyBool => P_bool
  | TyList elem => P_list elem (Ty_ind elem)
  | TyTuple elems => P_tuple elems (all elems)
  | TyFn params returnTy => P_fn params returnTy (all params) (Ty_ind returnTy)
  | TyVar index => P_var index
  end.
End Ty_induction.

Section Type_induction.
Variable P : Type_ -> Prop.
Hypothesis P_ident : forall value span ty, P (mkType (TypeIdent value) span ty).
Hypothesis P_list : forall elem span ty,
    P elem -> P (mkType (TypeList elem) span ty).
Hypothesis P_tuple : forall elems span ty,
    Forall P elems -> P (mkType (TypeTuple elems) span ty).

Fixpoint Type_ind (t : Type_) : P t :=
  let all := fix all (l : list Type_) : Forall P l :=
    match l with
    | [] => Forall_nil P
    | x :: l' => Forall_cons x (Type_ind x) (all l')
    end in
  match t with
  | mkType k span ty =>
      match k with
      | TypeIdent value => P_ident value span ty
      | TypeList elem => P_list elem span ty (Type_ind elem)
      | TypeTuple elems => P_tuple elems span ty (all elems)
      end
  end.
End Type_induction.

(** What an induction hypothesis says about an optional child. *)
Definition OptForall {A} (P : A -> Prop) (o : option A) : Prop :=
  match o with
  | Some a => P a
  | None => True
  end.

Section Expr_induction.
Variable P : Expr -> Prop.
Hypothesis P_empty : forall span ty, P (mkExpr ExprEmpty span ty).
Hypothesis P_let : forall name type rhs after span ty,
    P rhs -> P after -> P (mkExpr (ExprLet name type rhs after) span ty).
Hypothesis P_block : forall exprs span ty,
    Forall P exprs -> P (mkExpr (ExprBlock exprs) span ty).
Hypothesis P_literal : forall value span ty,
    P (mkExpr (ExprLiteral value) span ty).
Hypothesis P_ident : forall value span ty,
    P (mkExpr (ExprIdent value) span ty).
Hypothesis P_binary : forall binaryKind lhs rhs span ty,
    P lhs -> P rhs -> P (mkExpr (ExprBinary binaryKind lhs rhs) span ty).
Hypothesis P_unary : forall unaryKind rhs span ty,
    P rhs -> P (mkExpr (ExprUnary unaryKind rhs) span ty).
Hypothesis P_call : forall lhs args span ty,
    P lhs -> Forall P args -> P (mkExpr (ExprCall lhs args) span ty).
Hypothesis P_if : forall cond then_ else_ span ty,
    P cond -> P then_ -> OptForall P else_ ->
    P (mkExpr (ExprIf cond then_ else_) span ty).

Fixpoint Expr_ind (e : Expr) : P e :=
  let all := fix all (l : list Expr) : Forall P l :=
    match l with
    | [] => Forall_nil P
    | x :: l' => Forall_cons x (Expr_ind x) (all l')
    end in
  match e with
  | mkExpr k span ty =>
      match k with
      | ExprEmpty => P_empty span ty
      | ExprLet name type rhs after =>
          P_let name type rhs after span ty (Expr_ind rhs) (Expr_ind after)
      | ExprBlock exprs => P_block exprs span ty (all exprs)
      | ExprLiteral value => P_literal value span ty
      | ExprIdent value => P_ident value span ty
      | ExprBinary binaryKind lhs rhs =>
          P_binary binaryKind lhs rhs span ty (Expr_ind lhs) (Expr_ind rhs)
      | ExprUnary unaryKind rhs => P_unary unaryKind rhs span ty (Expr_ind rhs)
      | ExprCall lhs args => P_call lhs args span ty (Expr_ind lhs) (all args)
      | ExprIf cond then_ else_ =>
          P_if cond then_ else_ span ty (Expr_ind cond) (Expr_ind then_)
            (match else_ return OptForall P else_ with
             | Some x => Expr_ind x
             | None => I
             end)
      end
  end.
End Expr_induction.

(* ================================================================== *)
(** * ast.ts : operator tables *)

(** The source text of an operator kind (the kind _is_ that string in the
    source). *)
Definition BinaryKind_text (k : BinaryKind) : string :=
  match k with
  | BkAdd => "+" | BkSub => "-" | BkMul => "*" | BkDiv => "/"
  | BkAnd => "&" | BkOr => "|" | BkLt => "<" | BkGt => ">"
  | BkEq => "==" | BkLe => "<=" | BkGe => ">=" | BkNe => "!="
  end.

Definition UnaryKind_text (k : UnaryKind) : string :=
  match k with
  | UkNot => "!"
  | UkNeg => "-"
  end.

Definition BinaryKind_eq_dec (a b : BinaryKind) : {a = b} + {a <> b}.
Proof. decide equality. Defined.

Definition BinaryKind_eqb (a b : BinaryKind) : bool :=
  if BinaryKind_eq_dec a b then true else false.

Definition COMPARISON_KINDS : list BinaryKind :=
  [BkGt; BkLt; BkEq; BkLe; BkGe; BkNe].
Definition EQUALITY_KINDS : list BinaryKind := [BkEq; BkNe].
Definition LOGICAL_KINDS : list BinaryKind := [BkAnd; BkOr].
Definition ARITH_TERM_KINDS : list BinaryKind := [BkAdd; BkSub].
Definition ARITH_FACTOR_KINDS : list BinaryKind := [BkMul; BkDiv].

Definition UNARY_KINDS : list UnaryKind := [UkNot; UkNeg].

(** [kinds.includes(k)] *)
Definition includes (kinds : list BinaryKind) (k : BinaryKind) : bool :=
  existsb (BinaryKind_eqb k) kinds.

(** A [Map] built from an entry list whose keys are pairwise distinct,
    with its [get]: [None] is the [undefined] of a missing key. *)
Definition Map (K V : Type) := list (K * V).

Fixpoint Map_get {V} (m : Map BinaryKind V) (k : BinaryKind) : option V :=
  match m with
  | [] => None
  | (k', v) :: m' => if BinaryKind_eqb k k' then Some v else Map_get m' k
  end.

Definition BINARY_KIND_PREC_CLASS : Map BinaryKind number :=
  [ (BkAdd, 0); (BkSub, 0); (BkMul, 0); (BkDiv, 0);
    (BkAnd, 1); (BkOr, 2); (BkLt, 3); (BkGt, 4);
    (BkEq, 5); (BkLe, 6); (BkGe, 7); (BkNe, 8) ].

(** The outcome of a function that may throw. *)
Inductive result (A : Type) :=
| Ok (value : A)
| Throw (message : string).
Arguments Ok {A} value.
Arguments Throw {A} message.

(** JavaScript's [!cls] on [number | undefined]: [undefined] and the
    number zero are the falsy values. *)
Definition not_ (cls : option number) : bool :=
  match cls with
  | None => true
  | Some n => n =? 0
  end.

Definition binaryExprPrecedenceClass (k : BinaryKind) : result number :=
  let cls := Map_get BINARY_KIND_PREC_CLASS k in
  if not_ cls then Throw ("Invalid binary kind: " +:+ BinaryKind_text k)
  else match cls with
       | Some c => Ok c
       | None => Throw ("Invalid binary kind: " +:+ BinaryKind_text k)
       end.

(* ================================================================== *)
(** * ast.ts : semantic types *)

Definition tyIsUnit (ty : Ty) : bool :=
  match ty with
  | TyTuple elems => (List.length elems =? 0)%nat
  | _ => false
  end.

(* ================================================================== *)
(** * ast.ts : folders *)

(** A folder: [folder.expr (e)] is the method call with [this = folder]. *)
Record Folder := mkFolder {
  item : Item -> Item;
  expr : Expr -> Expr;
  ident : Identifier -> Identifier;
  type : Type_ -> Type_
}.

(** [x && f(x)] on an optional object: objects are truthy. *)
Definition and_then {A B} (x : option A) (f : A -> B) : option B :=
  match x with
  | Some a => Some (f a)
  | None => None
  end.

Definition fold_ast (ast : Ast) (folder : Folder) : Ast :=
  map (fun item_ => item folder item_) ast.

Definition superFoldItem (item_ : Item) (folder : Folder) : Item :=
  match item_kind item_ with
  | ItemFunction node =>
      let args :=
        map (fun a =>
               mkFunctionArg (arg_name a) (type folder (arg_type a)) (arg_span a))
            (fn_args node) in
      mkItem
        (ItemFunction
           (mkFunctionDef
              (fn_name node)
              args
              (expr folder (fn_body node))
              (and_then (fn_returnType node) (type folder))))
        (item_span item_)
        (item_id item_)
  end.

(** The nodes built by the structural defaults are object literals with
    the fields [kind], the children and [span]: no [ty] key. *)
Definition superFoldExpr (expr_ : Expr) (folder : Folder) : Expr :=
  let span := Expr_span expr_ in
  match Expr_kind expr_ with
  | ExprEmpty => mkExpr ExprEmpty span None
  | ExprLet name type_ rhs after =>
      mkExpr
        (ExprLet name
           (and_then type_ (type folder))
           (expr folder rhs)
           (expr folder after))
        span None
  | ExprBlock exprs =>
      mkExpr (ExprBlock (map (fun e => expr folder e) exprs)) span None
  | ExprLiteral value => mkExpr (ExprLiteral value) span None
  | ExprIdent value => mkExpr (ExprIdent (ident folder value)) span None
  | ExprBinary binaryKind lhs rhs =>
      mkExpr (ExprBinary binaryKind (expr folder lhs) (expr folder rhs)) span None
  | ExprUnary unaryKind rhs =>
      mkExpr (ExprUnary unaryKind (expr folder rhs)) span None
  | ExprCall lhs args =>
      mkExpr
        (ExprCall (expr folder lhs) (map (fun e => expr folder e) args))
        span None
  | ExprIf cond then_ else_ =>
      mkExpr
        (ExprIf (expr folder cond) (expr folder then_)
           (and_then else_ (expr folder)))
        span None
  end.

Definition superFoldType (type_ : Type_) (folder : Folder) : Type_ :=
  let span := Type_span type_ in
  match Type_kind type_ with
  | TypeIdent value => mkType (TypeIdent (ident folder value)) span None
  | TypeList elem => mkType (TypeList (type folder elem)) span None
  | TypeTuple elems =>
      mkType (TypeTuple (map (fun t => type folder t) elems)) span None
  end.

(** ** The default folder

    [DEFAULT_FOLDER] is the object whose methods call the structural
    defaults with [this], the object itself.  The knot is tied by
    structural recursion on the tree: each method below is the body of the
    corresponding [superFold*] with [folder.m (x)] read as the method [m]
    of this same object.  [DEFAULT_FOLDER_item], [DEFAULT_FOLDER_expr],
    [DEFAULT_FOLDER_ident] and [DEFAULT_FOLDER_type] further down show that
    the object satisfies the equations of the source. *)

Fixpoint DEFAULT_type (type_ : Type_) : Type_ :=
  match type_ with
  | mkType k span _ =>
      match k with
      | TypeIdent value => mkType (TypeIdent value) span None
      | TypeList elem => mkType (TypeList (DEFAULT_type elem)) span None
      | TypeTuple elems =>
          mkType (TypeTuple (map (fun t => DEFAULT_type t) elems)) span None
      end
  end.

Fixpoint DEFAULT_expr (expr_ : Expr) : Expr :=
  match expr_ with
  | mkExpr k span _ =>
      match k with
      | ExprEmpty => mkExpr ExprEmpty span None
      | ExprLet name type_ rhs after =>
          mkExpr
            (ExprLet name (and_then type_ DEFAULT_type)
               (DEFAULT_expr rhs) (DEFAULT_expr after))
            span None
      | ExprBlock exprs =>
          mkExpr (ExprBlock (map (fun e => DEFAULT_expr e) exprs)) span None
      | ExprLiteral value => mkExpr (ExprLiteral value) span None
      | ExprIdent value => mkExpr (ExprIdent value) span None
      | ExprBinary binaryKind lhs rhs =>
          mkExpr (ExprBinary binaryKind (DEFAULT_expr lhs) (DEFAULT_expr rhs))
            span None
      | ExprUnary unaryKind rhs =>
          mkExpr (ExprUnary unaryKind (DEFAULT_expr rhs)) span None
      | ExprCall lhs args =>
          mkExpr
            (ExprCall (DEFAULT_expr lhs) (map (fun e => DEFAULT_expr e) args))
            span None
      | ExprIf cond then_ else_ =>
          mkExpr
            (ExprIf (DEFAULT_expr cond) (DEFAULT_expr then_)
               (match else_ with
                | Some e => Some (DEFAULT_expr e)
                | None => None
                end))
            span None
      end
  end.

Definition DEFAULT_item (item_ : Item) : Item :=
  match item_kind item_ with
  | ItemFunction node =>
      mkItem
        (ItemFunction
           (mkFunctionDef
              (fn_name node)
              (map (fun a =>
                      mkFunctionArg (arg_name a) (DEFAULT_type (arg_type a))
                        (arg_span a))
                   (fn_args node))
              (DEFAULT_expr (fn_body node))
              (and_then (fn_returnType node) DEFAULT_type)))
        (item_span item_)
        (item_id item_)
  end.

Definition DEFAULT_FOLDER : Folder :=
  mkFolder DEFAULT_item DEFAULT_expr (fun ident_ => ident_) DEFAULT_type.

(* ================================================================== *)
(** * printer.ts *)

(** ** String primitives of the host language *)

(** The text of an integer-valued number inside a template literal. *)
Definition show_number (n : number) : string :=
  NilZero.string_of_int (Z.to_int n).

Definition newline : ascii := "010"%char.
Definition NL : string := String newline EmptyString.
Definition QUOTE : string := String "034"%char EmptyString.

(** [parts.join(sep)] *)
Fixpoint join (sep : string) (parts : list string) : string :=
  match parts with
  | [] => EmptyString
  | [s] => s
  | s :: rest => s +:+ sep +:+ join sep rest
  end.

(** [s.repeat(count)] *)
Fixpoint repeat_ (s : string) (count : nat) : string :=
  match count with
  | O => EmptyString
  | S n => s +:+ repeat_ s n
  end.

(** [xs.map((s) => s.length).reduce((a, b) => a + b, 0)] *)
Definition total_length (xs : list string) : nat :=
  fold_left (fun a b => (a + b)%nat) (map String.length xs) 0%nat.

(** ** The printer.  Indentation levels are natural numbers: they start
    at 0 in [printFunction] and only ever grow by one. *)

Definition ind (indent : nat) : string :=
  repeat_ "  " (indent * 2).

Definition linebreak (indent : nat) : string :=
  NL +:+ ind indent.

Definition printRes (res : Resolution) : string :=
  match res with
  | ResLocal index => "#" +:+ show_number index
  | ResItem index => "#G" +:+ show_number index
  | ResBuiltin _ => "#B"
  end.

Definition printIdent (ident_ : Identifier) : string :=
  let res :=
    match ident_res ident_ with
    | Some r => printRes r
    | None => EmptyString
    end in
  ident_name ident_ +:+ res.

Fixpoint printType (type_ : Type_) : string :=
  match type_ with
  | mkType k _ _ =>
      match k with
      | TypeIdent value => printIdent value
      | TypeList elem => "[" +:+ printType elem +:+ "]"
      | TypeTuple elems => "(" +:+ join ", " (map printType elems) +:+ ")"
      end
  end.

Fixpoint printTy (ty : Ty) : string :=
  match ty with
  | TyString => "String"
  | TyInt => "Int"
  | TyBool => "Bool"
  | TyList elem => "[" +:+ printTy elem +:+ "]"
  | TyTuple elems => "(" +:+ join ", " (map printTy elems) +:+ ")"
  | TyFn params returnTy =>
      let ret :=
        if tyIsUnit returnTy then EmptyString else ": " +:+ printTy returnTy in
      "fn(" +:+ join ", " (map printTy params) +:+ ")" +:+ ret
  | TyVar index => "?" +:+ show_number index
  end.

(** [expr.exprs[exprs.length - 1]?.kind === "empty"]: on the empty array
    the element read is [undefined], here [None]. *)
Definition last_is_empty (exprs : list Expr) : bool :=
  match nth_error exprs (List.length exprs - 1) with
  | Some e =>
      match Expr_kind e with
      | ExprEmpty => true
      | _ => false
      end
  | None => false
  end.

Fixpoint printExpr (expr_ : Expr) (indent : nat) {struct expr_} : string :=
  match expr_ with
  | mkExpr k _ _ =>
      match k with
      | ExprEmpty => EmptyString
      | ExprLet name type_ rhs after =>
          let type_s :=
            match type_ with
            | Some t => ": " +:+ printType t
            | None => EmptyString
            end in
          "let " +:+ name +:+ type_s +:+ " = "
            +:+ printExpr rhs (indent + 1)
            +:+ " in" +:+ linebreak indent
            +:+ printExpr after indent
      | ExprBlock block =>
          let exprs := map (fun e => printExpr e (indent + 1)) block in
          if (List.length exprs =? 1)%nat then
            "(" +:+ nth 0 exprs EmptyString +:+ ")"
          else
            let shortExprs := (total_length exprs <? 40)%nat in
            let alreadyHasTrailingSpace := last_is_empty block in
            if shortExprs then
              let trailingSpace :=
                if alreadyHasTrailingSpace then EmptyString else " " in
              "( " +:+ join "; " exprs +:+ trailingSpace +:+ ")"
            else
              let joiner := ";" +:+ linebreak (indent + 1) in
              ("(" +:+ linebreak (indent + 1))
                +:+ join joiner exprs
                +:+ (linebreak indent +:+ ")")
      | ExprLiteral value =>
          match value with
          | LitStr s => QUOTE +:+ s +:+ QUOTE
          | LitInt n => show_number n
          end
      | ExprIdent value => printIdent value
      | ExprBinary binaryKind lhs rhs =>
          printExpr lhs indent +:+ " " +:+ BinaryKind_text binaryKind +:+ " "
            +:+ printExpr rhs indent
      | ExprUnary unaryKind rhs =>
          UnaryKind_text unaryKind +:+ printExpr rhs indent
      | ExprCall lhs call_args =>
          let args := map (fun arg => printExpr arg (indent + 1)) call_args in
          let shortArgs := (total_length args <? 40)%nat in
          if shortArgs then
            printExpr lhs indent +:+ "(" +:+ join ", " args +:+ ")"
          else
            (printExpr lhs indent +:+ "(" +:+ linebreak (indent + 1))
              +:+ join (linebreak (indent + 1)) args
              +:+ (linebreak indent +:+ ")")
      | ExprIf cond then_ else_ =>
          let elsePart :=
            match else_ with
            | Some e => " else " +:+ printExpr e (indent + 1)
            | None => EmptyString
            end in
          "if " +:+ printExpr cond (indent + 1) +:+ " then "
            +:+ printExpr then_ (indent + 1) +:+ elsePart
      end
  end.

Definition printFunction (func : FunctionDef) : string :=
  let args :=
    join ", "
      (map (fun a => arg_name a +:+ ": " +:+ printType (arg_type a))
           (fn_args func)) in
  let ret :=
    match fn_returnType func with
    | Some t => ": " +:+ printType t
    | None => EmptyString
    end in
  "function " +:+ fn_name func +:+ "(" +:+ args +:+ ")" +:+ ret +:+ " = "
    +:+ printExpr (fn_body func) 0.

Definition printItem (item_ : Item) : string :=
  match item_kind item_ with
  | ItemFunction node => printFunction node
  end.

Definition printAst (ast : Ast) : string :=
  join NL (map printItem ast).

(* ================================================================== *)
(** * error.ts : splitting the input into line spans *)

(** [input.slice(from, to)] on integer arguments. *)
Definition slice (input : string) (from to : number) : string :=
  let len := Z.of_nat (String.length input) in
  let clamp := fun k => if k <? 0 then Z.max (len + k) 0 else Z.min k len in
  let from' := clamp from in
  let to' := clamp to in
  substring (Z.to_nat from') (Z.to_nat (Z.max (to' - from') 0)) input.

(** [lines.push(span)] *)
Definition push (lines_ : list Span) (span : Span) : list Span :=
  lines_ ++ [span].

(** [lines[lines.length - 1].end++].  The array starts with one element
    and never shrinks, so the empty case is never reached. *)
Fixpoint bump_last_end (lines_ : list Span) : list Span :=
  match lines_ with
  | [] => []
  | [l] => [mkSpan (start l) (end_ l + 1)]
  | l :: rest => l :: bump_last_end rest
  end.

(** The [for] loop of [lines]: [steps] counts the iterations left,
    [input.length - i]. *)
Fixpoint lines_loop (input : string) (steps : nat) (i : number)
    (lines_ : list Span) : list Span :=
  match steps with
  | O => lines_
  | S steps' =>
      let lines' :=
        match String.get (Z.to_nat i) input with
        | Some c =>
            if Ascii.eqb c newline
            then push lines_ (mkSpan (i + 1) (i + 1))
            else bump_last_end lines_
        | None => bump_last_end lines_
        end in
      lines_loop input steps' (i + 1) lines'
  end.

Definition lines (input : string) : list Span :=
  lines_loop input (String.length input) 0 [mkSpan 0 0].

(** ** What the spans are measured against *)

(** The number of newline characters of a string. *)
Fixpoint count_newlines (s : string) : nat :=
  match s with
  | EmptyString => 0%nat
  | String c s' =>
      if Ascii.eqb c newline then S (count_newlines s') else count_newlines s'
  end.

(** The source lines of an input: the pieces between newline characters,
    newline excluded (what [input.split] on a newline returns). *)
Fixpoint split_lines (s : string) : list string :=
  match s with
  | EmptyString => [EmptyString]
  | String c s' =>
      if Ascii.eqb c newline then EmptyString :: split_lines s'
      else match split_lines s' with
           | l :: ls => String c l :: ls
           | [] => [String c EmptyString]
           end
  end.

(** The spans of consecutive lines laid out from offset [off], one
    separating character between two lines. *)
Fixpoint spans_of (ls : list string) (off : number) : list Span :=
  match ls with
  | [] => []
  | l :: ls' =>
      let stop := off + Z.of_nat (String.length l) in
      mkSpan off stop :: spans_of ls' (stop + 1)
  end.

(** Position [i] lies in the span: the span is the half-open interval
    from [start] to [end]. *)
Definition in_span (i : number) (sp : Span) : Prop :=
  start sp <= i < end_ sp.

(* ================================================================== *)
(** * error.ts : merging spans and reporting errors *)

Module ErrorReport.

(** [Math.min] and [Math.max] on integers. *)
Definition spanMerge (a b : Span) : Span :=
  mkSpan (Z.min (start a) (start b)) (Z.max (end_ a) (end_ b)).

Definition min (a b : number) : number :=
  if a <? b then a else b.

(** [Number.MAX_SAFE_INTEGER], the start of the span of an error at the
    end of the input. *)
Definition MAX_SAFE_INTEGER : number := 9007199254740991.

(** [class CompilerError extends Error]: [message] is the [msg] handed to
    [super]. *)
Record CompilerError := mkCompilerError {
  msg : string;
  span : Span
}.

Definition message (e : CompilerError) : string := msg e.

(** What can be thrown here: a [CompilerError], a plain [Error], or the
    [RangeError] of [String.prototype.repeat]; [withErrorPrinter] treats
    every value that is not a [CompilerError] alike. *)
Inductive Exception :=
| ThrownCompilerError (e : CompilerError)
| ThrownError (message_ : string)
| ThrownRangeError (message_ : string).

Inductive Completion (A : Type) :=
| Normal (value : A)
| Thrown (e : Exception).
Arguments Normal {A} value.
Arguments Thrown {A} e.

(** A run of effectful code: the lines handed to [console.error], in
    order, and how the run completed. *)
Definition Run (A : Type) : Type := list string * Completion A.

Definition ret {A} (a : A) : Run A := ([], Normal a).

Definition throw {A} (e : Exception) : Run A := ([], Thrown e).

Definition console_error (line : string) : Run unit := ([line], Normal tt).

Definition seq {A B} (r : Run A) (k : A -> Run B) : Run B :=
  match r with
  | (out, Normal a) => let (out', c) := k a in (out ++ out', c)
  | (out, Thrown e) => (out, Thrown e)
  end.

Notation "x <-- r ;;; k" := (seq r (fun x => k))
  (at level 61, r at next level, right associativity).
Notation "r ;;; k" := (seq r (fun _ => k))
  (at level 61, right associativity).

(** [s.repeat(count)] on an integer count: a negative count is a
    [RangeError]. *)
Definition repeat (s : string) (count : number) : Run string :=
  if count <? 0
  then throw (ThrownRangeError ("Invalid count value: " +:+ show_number count))
  else ret (repeat_ s (Z.to_nat count)).

Definition Span_eqb (a b : Span) : bool :=
  (start a =? start b) && (end_ a =? end_ b).

(** [spans.indexOf(span)].  The source compares object identities; the
    spans of [lines] are pairwise different as values
    ([lines_NoDup] below), so comparing values finds the same index. *)
Fixpoint indexOf_from (spans : list Span) (span_ : Span) (i : number) : number :=
  match spans with
  | [] => -1
  | s :: rest => if Span_eqb s span_ then i else indexOf_from rest span_ (i + 1)
  end.

Definition indexOf (spans : list Span) (span_ : Span) : number :=
  indexOf_from spans span_ 0.

Definition spanToSnippet (input : string) (span_ : Span) : string :=
  if start span_ =? MAX_SAFE_INTEGER then EmptyString
  else slice input (start span_) (end_ span_).

Definition renderError (input filename : string) (e : CompilerError) : Run unit :=
  let lineSpans := lines input in
  let line :=
    if start (span e) =? MAX_SAFE_INTEGER
    then nth_error lineSpans (List.length lineSpans - 1)
    else List.find
           (fun line => (start line <=? start (span e))
                        && (end_ line >=? start (span e)))
           lineSpans in
  match line with
  | None =>
      throw (ThrownError
               ("Span out of bounds: " +:+ show_number (start (span e))
                  +:+ ".." +:+ show_number (end_ (span e))))
  | Some line =>
      let lineIdx := indexOf lineSpans line in
      let lineNo := lineIdx + 1 in
      console_error ("error: " +:+ message e) ;;;
      console_error (" --> " +:+ filename +:+ ":" +:+ show_number lineNo) ;;;
      console_error (show_number lineNo +:+ " | " +:+ spanToSnippet input line) ;;;
      let startRelLine :=
        if start (span e) =? MAX_SAFE_INTEGER then 0
        else start (span e) - start line in
      let spanLength := min (end_ (span e)) (end_ line) - start (span e) in
      pad <-- repeat " " (Z.of_nat (String.length (show_number lineNo))) ;;;
      gap <-- repeat " " startRelLine ;;;
      carets <-- repeat "^" spanLength ;;;
      console_error (pad +:+ "   " +:+ gap +:+ carets)
  end.

(** [f] is the run of the callback. *)
Definition withErrorPrinter (input filename : string) (f : Run unit) : Run unit :=
  match f with
  | (out, Normal _) => (out, Normal tt)
  | (out, Thrown (ThrownCompilerError e)) =>
      let (out', c) := renderError input filename e in (out ++ out', c)
  | (out, Thrown e) => (out, Thrown e)
  end.

Definition todo {A} (msg_ : string) : Run A :=
  throw (ThrownCompilerError (mkCompilerError ("TODO: " +:+ msg_) (mkSpan 0 0))).

(** ** What an error report is measured against *)

(** The number of the line that holds offset [s]: one more than the
    number of newline characters before [s]. *)
Definition line_number (input : string) (s : number) : number :=
  Z.of_nat (S (count_newlines (substring 0 (Z.to_nat s) input))).

(** The text of line [n], lines counted from 1. *)
Definition line_text (input : string) (n : number) : string :=
  nth (Z.to_nat (n - 1)) (split_lines input) EmptyString.

(** The offset at which line [n] starts. *)
Definition line_start (input : string) (n : number) : number :=
  start (nth (Z.to_nat (n - 1)) (lines input) DUMMY_SPAN).

(** The offset at which line [n] ends. *)
Definition line_end (input : string) (n : number) : number :=
  end_ (nth (Z.to_nat (n - 1)) (lines input) DUMMY_SPAN).

(** The four lines of the report of an error whose span starts within
    the input: the message, the file and line, the line itself, and the
    underline below the part of the span that lies on that line. *)
Definition report_lines (input filename : string) (e : CompilerError)
  : list string :=
  let s := start (span e) in
  let n := line_number input s in
  [ "error: " +:+ msg e;
    " --> " +:+ filename +:+ ":" +:+ show_number n;
    show_number n +:+ " | " +:+ line_text input n;
    repeat_ " " (String.length (show_number n)) +:+ "   "
      +:+ repeat_ " " (Z.to_nat (s - line_start input n))
      +:+ repeat_ "^" (Z.to_nat (Z.min (end_ (span e)) (line_end input n) - s)) ].

(** The test of [renderError] for the line of offset [s]. *)
Definition holds (s : number) (line : Span) : bool :=
  (start line <=? s) && (end_ line >=? s).

(** A span moved right by [d]. *)
Definition shift (d : number) (sp : Span) : Span :=
  mkSpan (start sp + d) (end_ sp + d).

End ErrorReport.

(* ================================================================== *)
(** * The resolver (specification, section 4.2)

    The resolver pass is not part of the sources embedded above; it is
    written here after the algorithm of the specification. *)

Definition bind {A B} (r : result A) (k : A -> result B) : result B :=
  match r with
  | Ok a => k a
  | Throw msg => Throw msg
  end.

Notation "x <- r ;; k" := (bind r (fun x => k))
  (at level 61, r at next level, right associativity).

(** Run a fallible function over a list, left to right; the first failure
    aborts. *)
Definition mapM {A B} (f : A -> result B) : list A -> result (list B) :=
  fix go (l : list A) : result (list B) :=
    match l with
    | [] => Ok []
    | x :: l' => y <- f x ;; ys <- go l' ;; Ok (y :: ys)
    end.

Definition optM {A B} (f : A -> result B) (o : option A) : result (option B) :=
  match o with
  | Some a => b <- f a ;; Ok (Some b)
  | None => Ok None
  end.

(** A predicate holds of every element; written with a local [fix] so
    that tree predicates can recurse through it. *)
Definition All {A} (P : A -> Prop) : list A -> Prop :=
  fix go (l : list A) : Prop :=
    match l with
    | [] => True
    | x :: l' => P x /\ go l'
    end.

Module Resolver.
Section Resolve.

(** Modelled from the spec: the item-name table, name to declaration
    index, built once from the top-level sequence; the pass that builds
    it is missing, so the table is taken as given. *)
Variable items : string -> option number.

(** Modelled from the spec: the fixed builtin-name set, which the
    specification leaves implementation-defined. *)
Variable builtins : string -> bool.

(** Modelled from the spec: the search of the local stack,
    innermost first; the answer is the stack distance.  The resolver's
    scope stack is missing from the sources. *)
Fixpoint stack_distance (name : string) (locals : list string) : option nat :=
  match locals with
  | [] => None
  | n :: outer =>
      if String.eqb name n then Some 0%nat
      else option_map S (stack_distance name outer)
  end.

(** Modelled from the spec: resolution of one identifier, the missing
    resolver's handler: local stack, else item table, else builtin set,
    else the unresolved-name failure. *)
Definition resolve_ident (locals : list string) (ident_ : Identifier)
  : result Identifier :=
  let name := ident_name ident_ in
  let tag := fun r => Ok (mkIdentifier name (ident_span ident_) (Some r)) in
  match stack_distance name locals with
  | Some i => tag (ResLocal (Z.of_nat i))
  | None =>
      match items name with
      | Some i => tag (ResItem i)
      | None =>
          if builtins name then tag (ResBuiltin name)
          else Throw ("unresolved name: " +:+ name)
      end
  end.

(** Modelled from the spec: the missing resolver on written types; every
    identifier occurrence is resolved, the shape is kept. *)
Fixpoint resolve_type (locals : list string) (type_ : Type_) {struct type_}
  : result Type_ :=
  match type_ with
  | mkType k span ty =>
      match k with
      | TypeIdent value =>
          value' <- resolve_ident locals value ;;
          Ok (mkType (TypeIdent value') span ty)
      | TypeList elem =>
          elem' <- resolve_type locals elem ;;
          Ok (mkType (TypeList elem') span ty)
      | TypeTuple elems =>
          elems' <- mapM (resolve_type locals) elems ;;
          Ok (mkType (TypeTuple elems') span ty)
      end
  end.

(** Modelled from the spec: the missing resolver on expressions.  The
    right-hand side of a [let] is resolved in the outer scope; the name
    is pushed for the continuation only. *)
Fixpoint resolve_expr (locals : list string) (expr_ : Expr) {struct expr_}
  : result Expr :=
  match expr_ with
  | mkExpr k span ty =>
      match k with
      | ExprEmpty => Ok (mkExpr ExprEmpty span ty)
      | ExprLet name type_ rhs after =>
          type' <- optM (resolve_type locals) type_ ;;
          rhs' <- resolve_expr locals rhs ;;
          after' <- resolve_expr (name :: locals) after ;;
          Ok (mkExpr (ExprLet name type' rhs' after') span ty)
      | ExprBlock exprs =>
          exprs' <- mapM (resolve_expr locals) exprs ;;
          Ok (mkExpr (ExprBlock exprs') span ty)
      | ExprLiteral value => Ok (mkExpr (ExprLiteral value) span ty)
      | ExprIdent value =>
          value' <- resolve_ident locals value ;;
          Ok (mkExpr (ExprIdent value') span ty)
      | ExprBinary binaryKind lhs rhs =>
          lhs' <- resolve_expr locals lhs ;;
          rhs' <- resolve_expr locals rhs ;;
          Ok (mkExpr (ExprBinary binaryKind lhs' rhs') span ty)
      | ExprUnary unaryKind rhs =>
          rhs' <- resolve_expr locals rhs ;;
          Ok (mkExpr (ExprUnary unaryKind rhs') span ty)
      | ExprCall lhs args =>
          lhs' <- resolve_expr locals lhs ;;
          args' <- mapM (resolve_expr locals) args ;;
          Ok (mkExpr (ExprCall lhs' args') span ty)
      | ExprIf cond then_ else_ =>
          cond' <- resolve_expr locals cond ;;
          then' <- resolve_expr locals then_ ;;
          else' <- match else_ with
                   | Some e => e' <- resolve_expr locals e ;; Ok (Some e')
                   | None => Ok None
                   end ;;
          Ok (mkExpr (ExprIf cond' then' else') span ty)
      end
  end.

(** Modelled from the spec: the missing resolver on a function item.
    The argument names are pushed in argument order before the body is
    resolved, so the last argument is the innermost local. *)
Definition resolve_item (item_ : Item) : result Item :=
  match item_kind item_ with
  | ItemFunction node =>
      args' <- mapM (fun a =>
                       t <- resolve_type [] (arg_type a) ;;
                       Ok (mkFunctionArg (arg_name a) t (arg_span a)))
                    (fn_args node) ;;
      ret' <- optM (resolve_type []) (fn_returnType node) ;;
      body' <- resolve_expr (rev (map arg_name (fn_args node))) (fn_body node) ;;
      Ok (mkItem
            (ItemFunction (mkFunctionDef (fn_name node) args' body' ret'))
            (item_span item_) (item_id item_))
  end.

End Resolve.

(** The identifier of a resolved tree agrees with the lexical structure:
    [enclosing] lists the names of the [let]s around it, innermost
    first.  A local index [i] points at a binder of that name with no
    nearer binder of the name, so [i] counts the [let]s in between; any
    other resolution means no enclosing [let] binds the name. *)
Definition ident_agrees (enclosing : list string) (ident_ : Identifier) : Prop :=
  match ident_res ident_ with
  | Some (ResLocal i) =>
      0 <= i
      /\ nth_error enclosing (Z.to_nat i) = Some (ident_name ident_)
      /\ ~ In (ident_name ident_) (firstn (Z.to_nat i) enclosing)
  | Some _ => ~ In (ident_name ident_) enclosing
  | None => False
  end.

(** Every identifier reference of an expression agrees with the [let]s
    that lexically enclose it. *)
Fixpoint locals_agree (enclosing : list string) (expr_ : Expr) {struct expr_}
  : Prop :=
  match expr_ with
  | mkExpr k _ _ =>
      match k with
      | ExprEmpty => True
      | ExprLet name _ rhs after =>
          locals_agree enclosing rhs /\ locals_agree (name :: enclosing) after
      | ExprBlock exprs => All (locals_agree enclosing) exprs
      | ExprLiteral _ => True
      | ExprIdent value => ident_agrees enclosing value
      | ExprBinary _ lhs rhs =>
          locals_agree enclosing lhs /\ locals_agree enclosing rhs
      | ExprUnary _ rhs => locals_agree enclosing rhs
      | ExprCall lhs args =>
          locals_agree enclosing lhs /\ All (locals_agree enclosing) args
      | ExprIf cond then_ else_ =>
          locals_agree enclosing cond /\ locals_agree enclosing then_
          /\ match else_ with
             | Some e => locals_agree enclosing e
             | None => True
             end
      end
  end.

(** The trees of the two examples of the specification,
    [let a = 1 in let b = 2 in <use>]. *)
Definition lit (n : number) : Expr := mkExpr (ExprLiteral (LitInt n)) DUMMY_SPAN None.
Definition use (name : string) (res : option Resolution) : Expr :=
  mkExpr (ExprIdent (mkIdentifier name DUMMY_SPAN res)) DUMMY_SPAN None.
Definition let_ (name : string) (rhs after : Expr) : Expr :=
  mkExpr (ExprLet name None rhs after) DUMMY_SPAN None.
Definition let_a_let_b (name : string) (res : option Resolution) : Expr :=
  let_ "a" (lit 1) (let_ "b" (lit 2) (use name res)).

End Resolver.

(* ================================================================== *)
(** * Vocabulary of the statements *)

(** ** Trees compared up to the semantic-type annotation *)

Definition All2 {A} (R : A -> A -> Prop) : list A -> list A -> Prop :=
  fix go (la lb : list A) : Prop :=
    match la, lb with
    | [], [] => True
    | x :: la', y :: lb' => R x y /\ go la' lb'
    | _, _ => False
    end.

Definition Opt2 {A} (R : A -> A -> Prop) (oa ob : option A) : Prop :=
  match oa, ob with
  | Some a, Some b => R a b
  | None, None => True
  | _, _ => False
  end.

(** Two written types are equal in every field but [ty]. *)
Fixpoint Type_same_but_ty (a b : Type_) {struct a} : Prop :=
  match a, b with
  | mkType ka sa _, mkType kb sb _ =>
      sa = sb /\
      match ka, kb with
      | TypeIdent va, TypeIdent vb => va = vb
      | TypeList ea, TypeList eb => Type_same_but_ty ea eb
      | TypeTuple la, TypeTuple lb => All2 Type_same_but_ty la lb
      | _, _ => False
      end
  end.

(** Two expressions are equal in every field but [ty]. *)
Fixpoint Expr_same_but_ty (a b : Expr) {struct a} : Prop :=
  match a, b with
  | mkExpr ka sa _, mkExpr kb sb _ =>
      sa = sb /\
      match ka, kb with
      | ExprEmpty, ExprEmpty => True
      | ExprLet na ta ra aa, ExprLet nb tb rb ab =>
          na = nb /\ Opt2 Type_same_but_ty ta tb
          /\ Expr_same_but_ty ra rb /\ Expr_same_but_ty aa ab
      | ExprBlock la, ExprBlock lb => All2 Expr_same_but_ty la lb
      | ExprLiteral va, ExprLiteral vb => va = vb
      | ExprIdent va, ExprIdent vb => va = vb
      | ExprBinary ka' la ra, ExprBinary kb' lb rb =>
          ka' = kb' /\ Expr_same_but_ty la lb /\ Expr_same_but_ty ra rb
      | ExprUnary ka' ra, ExprUnary kb' rb =>
          ka' = kb' /\ Expr_same_but_ty ra rb
      | ExprCall fa la, ExprCall fb lb =>
          Expr_same_but_ty fa fb /\ All2 Expr_same_but_ty la lb
      | ExprIf ca ta ea, ExprIf cb tb eb =>
          Expr_same_but_ty ca cb /\ Expr_same_but_ty ta tb
          /\ match ea, eb with
             | Some x, Some y => Expr_same_but_ty x y
             | None, None => True
             | _, _ => False
             end
      | _, _ => False
      end
  end.

Definition Arg_same_but_ty (a b : FunctionArg) : Prop :=
  arg_name a = arg_name b /\ arg_span a = arg_span b
  /\ Type_same_but_ty (arg_type a) (arg_type b).

Definition Item_same_but_ty (a b : Item) : Prop :=
  item_span a = item_span b /\ item_id a = item_id b /\
  match item_kind a, item_kind b with
  | ItemFunction fa, ItemFunction fb =>
      fn_name fa = fn_name fb
      /\ All2 Arg_same_but_ty (fn_args fa) (fn_args fb)
      /\ Expr_same_but_ty (fn_body fa) (fn_body fb)
      /\ Opt2 Type_same_but_ty (fn_returnType fa) (fn_returnType fb)
  end.

Definition Ast_same_but_ty (a b : Ast) : Prop := All2 Item_same_but_ty a b.

(** ** Trees that carry no semantic-type annotation *)

Definition is_none {A} (o : option A) : bool :=
  match o with
  | None => true
  | Some _ => false
  end.

Definition opt_all {A} (p : A -> bool) (o : option A) : bool :=
  match o with
  | Some a => p a
  | None => true
  end.

Fixpoint Type_no_ty (t : Type_) : bool :=
  match t with
  | mkType k _ ty =>
      is_none ty &&
      match k with
      | TypeIdent _ => true
      | TypeList elem => Type_no_ty elem
      | TypeTuple elems => forallb Type_no_ty elems
      end
  end.

Fixpoint Expr_no_ty (e : Expr) : bool :=
  match e with
  | mkExpr k _ ty =>
      is_none ty &&
      match k with
      | ExprEmpty => true
      | ExprLet _ type_ rhs after =>
          opt_all Type_no_ty type_ && Expr_no_ty rhs && Expr_no_ty after
      | ExprBlock exprs => forallb Expr_no_ty exprs
      | ExprLiteral _ => true
      | ExprIdent _ => true
      | ExprBinary _ lhs rhs => Expr_no_ty lhs && Expr_no_ty rhs
      | ExprUnary _ rhs => Expr_no_ty rhs
      | ExprCall lhs args => Expr_no_ty lhs && forallb Expr_no_ty args
      | ExprIf cond then_ else_ =>
          Expr_no_ty cond && Expr_no_ty then_
          && match else_ with
             | Some e' => Expr_no_ty e'
             | None => true
             end
      end
  end.

Definition Item_no_ty (i : Item) : bool :=
  match item_kind i with
  | ItemFunction node =>
      forallb (fun a => Type_no_ty (arg_type a)) (fn_args node)
      && Expr_no_ty (fn_body node)
      && opt_all Type_no_ty (fn_returnType node)
  end.

Definition Ast_no_ty (ast : Ast) : bool := forallb Item_no_ty ast.

(** ** What the default fold does to a node: the result is the input in
    every field but [ty], carries no [ty], and is the input itself if
    that carries no [ty]. *)

Definition default_type_spec (t : Type_) : Prop :=
  Type_same_but_ty t (DEFAULT_type t)
  /\ Type_no_ty (DEFAULT_type t) = true
  /\ (Type_no_ty t = true -> DEFAULT_type t = t).

Definition default_expr_spec (e : Expr) : Prop :=
  Expr_same_but_ty e (DEFAULT_expr e)
  /\ Expr_no_ty (DEFAULT_expr e) = true
  /\ (Expr_no_ty e = true -> DEFAULT_expr e = e).

Definition default_item_spec (i : Item) : Prop :=
  Item_same_but_ty i (DEFAULT_item i)
  /\ Item_no_ty (DEFAULT_item i) = true
  /\ (Item_no_ty i = true -> DEFAULT_item i = i).

(** ** The non-tree fields and the children of a node *)

Inductive ExprTag :=
| TagEmpty
| TagLet (name : string)
| TagBlock
| TagLiteral (value : Literal)
| TagIdent
| TagBinary (binaryKind : BinaryKind)
| TagUnary (unaryKind : UnaryKind)
| TagCall
| TagIf.

(** The kind of an expression with the fields that are not subtrees. *)
Definition Expr_tag (e : Expr) : ExprTag :=
  match Expr_kind e with
  | ExprEmpty => TagEmpty
  | ExprLet name _ _ _ => TagLet name
  | ExprBlock _ => TagBlock
  | ExprLiteral value => TagLiteral value
  | ExprIdent _ => TagIdent
  | ExprBinary binaryKind _ _ => TagBinary binaryKind
  | ExprUnary unaryKind _ => TagUnary unaryKind
  | ExprCall _ _ => TagCall
  | ExprIf _ _ _ => TagIf
  end.

Inductive Child :=
| ChildExpr (e : Expr)
| ChildType (t : Type_)
| ChildIdent (i : Identifier).

Definition opt_list {A} (o : option A) : list A :=
  match o with
  | Some a => [a]
  | None => []
  end.

(** The subtrees of an expression, in field order. *)
Definition Expr_children (e : Expr) : list Child :=
  match Expr_kind e with
  | ExprEmpty => []
  | ExprLet _ type_ rhs after =>
      map ChildType (opt_list type_) ++ [ChildExpr rhs; ChildExpr after]
  | ExprBlock exprs => map ChildExpr exprs
  | ExprLiteral _ => []
  | ExprIdent value => [ChildIdent value]
  | ExprBinary _ lhs rhs => [ChildExpr lhs; ChildExpr rhs]
  | ExprUnary _ rhs => [ChildExpr rhs]
  | ExprCall lhs args => ChildExpr lhs :: map ChildExpr args
  | ExprIf cond then_ else_ =>
      [ChildExpr cond; ChildExpr then_] ++ map ChildExpr (opt_list else_)
  end.

(** The non-tree fields of an item: span, id, function name and, for each
    argument, its name and span. *)
Definition Item_fields (i : Item) : Span * number * string * list (string * Span) :=
  match item_kind i with
  | ItemFunction node =>
      (item_span i, item_id i, fn_name node,
       map (fun a => (arg_name a, arg_span a)) (fn_args node))
  end.

(** The subtrees of an item, in field order. *)
Definition Item_children (i : Item) : list Child :=
  match item_kind i with
  | ItemFunction node =>
      map (fun a => ChildType (arg_type a)) (fn_args node)
      ++ [ChildExpr (fn_body node)]
      ++ map ChildType (opt_list (fn_returnType node))
  end.

(** The handler of a folder that a child goes through. *)
Definition fold_child (folder : Folder) (c : Child) : Child :=
  match c with
  | ChildExpr e => ChildExpr (expr folder e)
  | ChildType t => ChildType (type folder t)
  | ChildIdent i => ChildIdent (ident folder i)
  end.

(** ** The non-tree fields and the children of a written type *)

Inductive TypeTag := TagTypeIdent | TagTypeList | TagTypeTuple.

Definition Type_tag (t : Type_) : TypeTag :=
  match Type_kind t with
  | TypeIdent _ => TagTypeIdent
  | TypeList _ => TagTypeList
  | TypeTuple _ => TagTypeTuple
  end.

(** The subtrees of a written type, in field order. *)
Definition Type_children (t : Type_) : list Child :=
  match Type_kind t with
  | TypeIdent value => [ChildIdent value]
  | TypeList elem => [ChildType elem]
  | TypeTuple elems => map ChildType elems
  end.

(** In how many of the given operator lists an operator occurs. *)
Definition occurrences (classes : list (list BinaryKind)) (k : BinaryKind) : nat :=
  List.length (filter (fun cls => includes cls k) classes).

(** ** Typing classes of the binary operators *)

Definition ARITH_KINDS : list BinaryKind :=
  ARITH_TERM_KINDS ++ ARITH_FACTOR_KINDS.

Definition TYPING_CLASSES : list (list BinaryKind) :=
  [ARITH_KINDS; COMPARISON_KINDS; EQUALITY_KINDS; LOGICAL_KINDS].

(** Both operators belong to one of the typing classes. *)
Definition same_typing_class (a b : BinaryKind) : bool :=
  existsb (fun cls => includes cls a && includes cls b) TYPING_CLASSES.

(** ** The grammar of rendered semantic types

    [elided] tells for which return types the return part of a function
    type is left out.  With [fun _ => false] this is the grammar in the
    words of the specification: every function type shows its return
    type. *)
#[local] Set Warnings "-register-all".
Inductive TyGrammar (elided : Ty -> bool) : Ty -> string -> Prop :=
| G_string : TyGrammar elided TyString "String"
| G_int : TyGrammar elided TyInt "Int"
| G_bool : TyGrammar elided TyBool "Bool"
| G_list : forall elem s,
    TyGrammar elided elem s ->
    TyGrammar elided (TyList elem) ("[" +:+ s +:+ "]")
| G_tuple : forall elems ss,
    Forall2 (TyGrammar elided) elems ss ->
    TyGrammar elided (TyTuple elems) ("(" +:+ join ", " ss +:+ ")")
| G_fn : forall params ss returnTy s,
    Forall2 (TyGrammar elided) params ss ->
    elided returnTy = false ->
    TyGrammar elided returnTy s ->
    TyGrammar elided (TyFn params returnTy)
      ("fn(" +:+ join ", " ss +:+ "): " +:+ s)
| G_fn_elided : forall params ss returnTy,
    Forall2 (TyGrammar elided) params ss ->
    elided returnTy = true ->
    TyGrammar elided (TyFn params returnTy)
      ("fn(" +:+ join ", " ss +:+ ")")
| G_var : forall index,
    TyGrammar elided (TyVar index) ("?" +:+ show_number index).

Definition SpecTyGrammar : Ty -> string -> Prop := TyGrammar (fun _ => false).

(* ================================================================== *)
(** * Sample trees *)

Definition int_type (span : Span) : Type_ :=
  mkType (TypeIdent (mkIdentifier "Int" span None)) span None.

Definition name_expr (name : string) (span : Span) : Expr :=
  mkExpr (ExprIdent (mkIdentifier name span None)) span None.

(** [function add(x: Int, y: Int): Int = x + y], as parsed: no
    resolution and no semantic type attached yet. *)
Definition add_ast : Ast :=
  [ mkItem
      (ItemFunction
         (mkFunctionDef "add"
            [ mkFunctionArg "x" (int_type (mkSpan 16 19)) (mkSpan 13 19);
              mkFunctionArg "y" (int_type (mkSpan 24 27)) (mkSpan 21 27) ]
            (mkExpr
               (ExprBinary BkAdd
                  (name_expr "x" (mkSpan 36 37))
                  (name_expr "y" (mkSpan 40 41)))
               (mkSpan 36 41) None)
            (Some (int_type (mkSpan 30 33)))))
      (mkSpan 0 41) 0 ].

(** The literal [1] after type checking: it carries its semantic type. *)
Definition typed_one : Expr :=
  mkExpr (ExprLiteral (LitInt 1)) (mkSpan 17 18) (Some TyInt).

(** [function one() = 1] after type checking: the literal carries its
    semantic type. *)
Definition one_ast : Ast :=
  [ mkItem
      (ItemFunction
         (mkFunctionDef "one" []
            (mkExpr (ExprLiteral (LitInt 1)) (mkSpan 17 18) (Some TyInt))
            None))
      (mkSpan 0 18) 0 ].

(* ================================================================== *)
(** * Strings *)

Lemma append_empty_r : forall s : string, s +:+ EmptyString = s.
Proof.
  induction s as [| c s IH]; simpl.
  - reflexivity.
  - now rewrite IH.
Qed.

Lemma append_assoc : forall a b c : string, (a +:+ b) +:+ c = a +:+ b +:+ c.
Proof.
  induction a as [| x a IH]; intros b c; simpl.
  - reflexivity.
  - now rewrite IH.
Qed.

Lemma append_length : forall a b : string,
    String.length (a +:+ b) = (String.length a + String.length b)%nat.
Proof.
  induction a as [| x a IH]; intros b; simpl.
  - reflexivity.
  - now rewrite IH.
Qed.

(** Appending something leaves a string unchanged only if that something
    is empty. *)
Lemma append_fixed_empty : forall s t : string, s +:+ t = s -> t = EmptyString.
Proof.
  intros s t H.
  apply (f_equal String.length) in H.
  rewrite append_length in H.
  destruct t as [| c t]; [reflexivity | simpl in H; lia].
Qed.

(* ================================================================== *)
(** * The operator tables *)

(** Where [binaryExprPrecedenceClass] returns and where it throws: the
    test [!cls] also rejects the class 0 of the table. *)
Lemma binaryExprPrecedenceClass_cases : forall k,
    binaryExprPrecedenceClass k =
    if includes ARITH_KINDS k
    then Throw ("Invalid binary kind: " +:+ BinaryKind_text k)
    else match Map_get BINARY_KIND_PREC_CLASS k with
         | Some c => Ok c
         | None => Throw ("Invalid binary kind: " +:+ BinaryKind_text k)
         end.
Proof. destruct k; reflexivity. Qed.

(** C2, on the code: the operator [+] is in the table with class 0, and
    [binaryExprPrecedenceClass] throws the invalid-operator error on it
    instead of returning its class. *)
Theorem binaryExprPrecedenceClass_throws_on_plus :
  Map_get BINARY_KIND_PREC_CLASS BkAdd = Some 0
  /\ binaryExprPrecedenceClass BkAdd = Throw "Invalid binary kind: +".
Proof. split; reflexivity. Qed.




(* ================================================================== *)
(** * Semantic types *)

(** C9: [tyIsUnit] holds of exactly the empty tuple, a value of the
    tuple kind; the seven kinds of [Ty] have no unit kind of their own. *)
Theorem tyIsUnit_iff_empty_tuple : forall ty : Ty,
    tyIsUnit ty = true <-> ty = TyTuple [].
Proof.
  intros ty; split.
  - destruct ty as [ | | | elem | elems | params returnTy | index ];
      simpl; try discriminate.
    destruct elems; [reflexivity | discriminate].
  - intros ->; reflexivity.
Qed.

(* ================================================================== *)
(** * The printer *)

(** C7: [printIdent] renders the name, then [#] and the index for a local
    resolution, [#G] and the index for an item resolution, [#B] for a
    builtin resolution, and nothing for an unresolved identifier; the
    rendering is the bare name exactly when no resolution is attached. *)
Theorem printIdent_suffix : forall (name : string) (span : Span),
    printIdent (mkIdentifier name span None) = name
    /\ (forall index,
           printIdent (mkIdentifier name span (Some (ResLocal index)))
           = name +:+ "#" +:+ show_number index)
    /\ (forall index,
           printIdent (mkIdentifier name span (Some (ResItem index)))
           = name +:+ "#G" +:+ show_number index)
    /\ (forall builtin,
           printIdent (mkIdentifier name span (Some (ResBuiltin builtin)))
           = name +:+ "#B")
    /\ (forall res,
           printIdent (mkIdentifier name span res) = name <-> res = None).
Proof.
  intros name span.
  assert (Hnone : printIdent (mkIdentifier name span None) = name)
    by apply append_empty_r.
  repeat split; try reflexivity; try exact Hnone.
  - intros H. destruct res as [r |]; [| reflexivity].
    unfold printIdent in H; simpl in H.
    apply append_fixed_empty in H.
    destruct r; discriminate H.
  - intros ->; exact Hnone.
Qed.

(** C5: two invocations of [printAst] on the same tree return the same
    string: the rendering is a function of the tree alone. *)
Theorem printAst_deterministic : forall (ast : Ast) (s1 s2 : string),
    printAst ast = s1 -> printAst ast = s2 -> s1 = s2.
Proof.
  intros ast s1 s2 H1 H2.
  rewrite <- H1, <- H2.
  reflexivity.
Qed.

Lemma printAst_deterministic_witness :
  printAst add_ast = "function add(x: Int, y: Int): Int = x + y".
Proof.
  apply (printAst_deterministic add_ast); reflexivity.
Defined.

(* ================================================================== *)
(** * The fold framework *)

(** ** The default folder is the object of the source: each method is the
    structural default applied to the folder itself. *)

Lemma DEFAULT_FOLDER_type : forall t,
    type DEFAULT_FOLDER t = superFoldType t DEFAULT_FOLDER.
Proof. intros [[v | e | es] span ty]; reflexivity. Qed.

Lemma DEFAULT_FOLDER_expr : forall e,
    expr DEFAULT_FOLDER e = superFoldExpr e DEFAULT_FOLDER.
Proof.
  intros [k span ty]; destruct k; reflexivity.
Qed.

Lemma DEFAULT_FOLDER_ident : forall i, ident DEFAULT_FOLDER i = i.
Proof. reflexivity. Qed.

Lemma DEFAULT_FOLDER_item : forall i,
    item DEFAULT_FOLDER i = superFoldItem i DEFAULT_FOLDER.
Proof. intros [[node] span id]; reflexivity. Qed.

(** ** Lists of children *)

Lemma All2_map_r {A} (R : A -> A -> Prop) (f : A -> A) : forall l,
    Forall (fun x => R x (f x)) l -> All2 R l (map f l).
Proof.
  induction 1 as [| x l Hx _ IH]; simpl; [exact I | split; assumption].
Qed.

Lemma forallb_map_true {A} (p : A -> bool) (f : A -> A) : forall l,
    Forall (fun x => p (f x) = true) l -> forallb p (map f l) = true.
Proof.
  induction 1 as [| x l Hx _ IH]; simpl; [reflexivity |].
  now rewrite Hx, IH.
Qed.

Lemma map_fixed {A} (p : A -> bool) (f : A -> A) : forall l,
    Forall (fun x => p x = true -> f x = x) l ->
    forallb p l = true -> map f l = l.
Proof.
  induction 1 as [| x l Hx _ IH]; simpl; [reflexivity |].
  intros H; apply andb_prop in H as [Hp Hl].
  now rewrite Hx, IH.
Qed.

Lemma Forall_and {A} (P Q : A -> Prop) : forall l,
    Forall (fun x => P x /\ Q x) l -> Forall P l /\ Forall Q l.
Proof.
  induction 1 as [| x l [Hp Hq] _ [IHp IHq]]; split; constructor; assumption.
Qed.

(** ** What the default fold does to one tree *)
Lemma DEFAULT_type_drops_ty : forall t, default_type_spec t.
Proof.
  induction t as [value span ty | elem span ty IH | elems span ty IH]
    using Type_ind; unfold default_type_spec in *; simpl.
  - repeat split. destruct ty; [discriminate | reflexivity].
  - destruct IH as (Hs & Hn & Hf). repeat split; try assumption.
    destruct ty; [discriminate |]; simpl; intros H; now rewrite Hf.
  - apply Forall_and in IH as [Hs IH]. apply Forall_and in IH as [Hn Hf].
    repeat split.
    + now apply All2_map_r.
    + now apply forallb_map_true.
    + destruct ty; [discriminate |]; simpl; intros H.
      now rewrite (map_fixed Type_no_ty).
Qed.

Lemma and_then_type_drops_ty : forall o : option Type_,
    Opt2 Type_same_but_ty o (and_then o DEFAULT_type)
    /\ opt_all Type_no_ty (and_then o DEFAULT_type) = true
    /\ (opt_all Type_no_ty o = true -> and_then o DEFAULT_type = o).
Proof.
  intros [t |]; simpl; [| repeat split].
  destruct (DEFAULT_type_drops_ty t) as (Hs & Hn & Hf).
  repeat split; try assumption. intros H; now rewrite Hf.
Qed.

Ltac split_bools :=
  repeat match goal with
    | H : _ && _ = true |- _ => apply andb_prop in H as [? ?]
    end.

Lemma DEFAULT_expr_drops_ty : forall e, default_expr_spec e.
Proof.
  induction e as
    [ span ty
    | name type_ rhs after span ty (Rs & Rn & Rf) (As & An & Af)
    | exprs span ty IH
    | value span ty
    | value span ty
    | binaryKind lhs rhs span ty (Ls & Ln & Lf) (Rs & Rn & Rf)
    | unaryKind rhs span ty (Rs & Rn & Rf)
    | lhs args span ty (Ls & Ln & Lf) IH
    | cond then_ else_ span ty (Cs & Cn & Cf) (Ts & Tn & Tf) IHe ]
    using Expr_ind; unfold default_expr_spec in *; simpl.
  - repeat split. destruct ty; [discriminate | reflexivity].
  - destruct (and_then_type_drops_ty type_) as (Ys & Yn & Yf).
    repeat split; try assumption.
    + now rewrite Yn, Rn, An.
    + destruct ty; [discriminate |]; simpl; intros Hn; split_bools.
      now rewrite Yf, Rf, Af.
  - apply Forall_and in IH as [Hs IH]. apply Forall_and in IH as [Hn Hf].
    repeat split.
    + now apply All2_map_r.
    + now apply forallb_map_true.
    + destruct ty; [discriminate |]; simpl; intros H.
      now rewrite (map_fixed Expr_no_ty).
  - repeat split. destruct ty; [discriminate | reflexivity].
  - repeat split. destruct ty; [discriminate | reflexivity].
  - repeat split; try assumption.
    + now rewrite Ln, Rn.
    + destruct ty; [discriminate |]; simpl; intros Hn; split_bools.
      now rewrite Lf, Rf.
  - repeat split; try assumption.
    destruct ty; [discriminate |]; simpl; intros Hn. now rewrite Rf.
  - apply Forall_and in IH as [Hs IH]. apply Forall_and in IH as [Hn Hf].
    repeat split; try assumption.
    + now apply All2_map_r.
    + rewrite Ln. now apply forallb_map_true.
    + destruct ty; [discriminate |]; simpl; intros H; split_bools.
      now rewrite Lf, (map_fixed Expr_no_ty).
  - destruct else_ as [e |]; simpl in *.
    + destruct IHe as (Es & En & Ef). repeat split; try assumption.
      * now rewrite Cn, Tn, En.
      * destruct ty; [discriminate |]; simpl; intros Hn; split_bools.
        now rewrite Cf, Tf, Ef.
    + repeat split; try assumption.
      * now rewrite Cn, Tn.
      * destruct ty; [discriminate |]; simpl; intros Hn; split_bools.
        now rewrite Cf, Tf.
Qed.

Lemma DEFAULT_item_drops_ty : forall i, default_item_spec i.
Proof.
  intros [[[name args body returnType]] span id].
  unfold default_item_spec, Item_same_but_ty, Item_no_ty, DEFAULT_item; simpl.
  destruct (DEFAULT_expr_drops_ty body) as (Bs & Bn & Bf).
  destruct (and_then_type_drops_ty returnType) as (Rs & Rn & Rf).
  set (f := fun a => mkFunctionArg (arg_name a) (DEFAULT_type (arg_type a))
                       (arg_span a)).
  assert (Hargs : Forall (fun a => default_type_spec (arg_type a)) args)
    by (apply Forall_forall; intros a _; apply DEFAULT_type_drops_ty).
  repeat split; try assumption.
  - apply All2_map_r. eapply Forall_impl; [| exact Hargs].
    intros a (Hs & _ & _). repeat split. exact Hs.
  - rewrite Bn, Rn, !andb_true_r.
    apply (forallb_map_true (fun a => Type_no_ty (arg_type a))).
    eapply Forall_impl; [| exact Hargs]. intros a (_ & Hn & _). exact Hn.
  - intros H; split_bools. rewrite Bf, Rf by assumption.
    rewrite (map_fixed (fun a => Type_no_ty (arg_type a))); try assumption.
    + reflexivity.
    + eapply Forall_impl; [| exact Hargs]. intros [n t s] (_ & _ & Hf) Ht.
      unfold f; simpl in *. now rewrite Hf.
Qed.

(** C1, as stated, fails: the default fold of a tree whose literal
    carries the semantic type [Int] is not that tree. *)
Lemma fold_ast_default_not_identity :
  fold_ast one_ast DEFAULT_FOLDER <> one_ast.
Proof. intros H; discriminate H. Qed.

(** C1, amended: folding with the default folder rebuilds every node
    with all its fields but the semantic-type annotation: the result is
    equal to the input in every field other than [ty], it carries no [ty]
    at all, and it is equal to the input exactly when the input carries no
    [ty]. *)
Theorem fold_ast_default_drops_ty : forall ast : Ast,
    Ast_same_but_ty ast (fold_ast ast DEFAULT_FOLDER)
    /\ Ast_no_ty (fold_ast ast DEFAULT_FOLDER) = true
    /\ (fold_ast ast DEFAULT_FOLDER = ast <-> Ast_no_ty ast = true).
Proof.
  intros ast.
  assert (H : Forall default_item_spec ast)
    by (apply Forall_forall; intros i _; apply DEFAULT_item_drops_ty).
  apply Forall_and in H as [Hs H]. apply Forall_and in H as [Hn Hf].
  assert (Hno : Ast_no_ty (fold_ast ast DEFAULT_FOLDER) = true)
    by (now apply forallb_map_true).
  split; [| split; [exact Hno | split]].
  - now apply All2_map_r.
  - intros E. now rewrite E in Hno.
  - intros E. now apply (map_fixed Item_no_ty).
Qed.

Lemma fold_ast_default_drops_ty_witness :
  Ast_no_ty add_ast = true /\ fold_ast add_ast DEFAULT_FOLDER = add_ast.
Proof.
  split; [reflexivity |].
  apply (proj2 (fold_ast_default_drops_ty add_ast)).
  reflexivity.
Defined.

(** C8, as stated, fails: the semantic-type annotation is a non-tree
    field of an expression, and the structural default does not keep it:
    the literal typed [Int] comes back with no [ty]. *)
Lemma superFoldExpr_changes_ty :
  Expr_ty (superFoldExpr typed_one DEFAULT_FOLDER) <> Expr_ty typed_one.
Proof. intros H; discriminate H. Qed.

(** C8, amended: with any folder, the structural defaults keep the span,
    the kind with its literal value, operator tag or [let] name, and for
    an item the span, the id, the function name and the name and span of
    every argument; the children of the result are the handler results of
    the children of the input, in the same order.  The one non-tree field
    that is not kept is the semantic-type annotation: the expression
    that [superFoldExpr] returns carries no [ty]. *)
Theorem superFold_keeps_fields_drops_ty : forall folder : Folder,
    (forall e : Expr,
        Expr_span (superFoldExpr e folder) = Expr_span e
        /\ Expr_tag (superFoldExpr e folder) = Expr_tag e
        /\ Expr_children (superFoldExpr e folder)
           = map (fold_child folder) (Expr_children e)
        /\ Expr_ty (superFoldExpr e folder) = None)
    /\ (forall i : Item,
           Item_fields (superFoldItem i folder) = Item_fields i
           /\ Item_children (superFoldItem i folder)
              = map (fold_child folder) (Item_children i)).
Proof.
  intros folder; split.
  - intros [k span ty];
      destruct k as [ | name type_ rhs after | exprs | value | value
                    | binaryKind lhs rhs | unaryKind rhs | lhs args
                    | cond then_ else_ ];
      simpl; repeat split;
      unfold Expr_children; simpl; rewrite ?map_map; try reflexivity.
    + destruct type_; reflexivity.
    + destruct else_; reflexivity.
  - intros [[[name args body returnType]] span id].
    unfold Item_fields, Item_children, superFoldItem; simpl. split.
    + now rewrite map_map.
    + rewrite !map_app, !map_map. simpl.
      destruct returnType; reflexivity.
Qed.

(* ================================================================== *)
(** * The rendering of semantic types *)

Lemma Forall2_map_printTy (elided : Ty -> bool) : forall elems,
    Forall (fun t => TyGrammar elided t (printTy t)) elems ->
    Forall2 (TyGrammar elided) elems (map printTy elems).
Proof.
  induction 1 as [| t elems Ht _ IH]; simpl; constructor; assumption.
Qed.

Lemma Forall2_unique_printTy (elided : Ty -> bool) : forall elems ss,
    Forall (fun t => forall s, TyGrammar elided t s -> s = printTy t) elems ->
    Forall2 (TyGrammar elided) elems ss ->
    ss = map printTy elems.
Proof.
  intros elems ss Hall H2; induction H2 as [| t s elems ss Hts _ IH]; simpl.
  - reflexivity.
  - inversion Hall as [| ? ? Ht Hrest]; subst.
    now rewrite (Ht s Hts), (IH Hrest).
Qed.

(** [printTy] follows the grammar in which exactly the unit return type
    is left out. *)
Lemma printTy_in_grammar : forall ty, TyGrammar tyIsUnit ty (printTy ty).
Proof.
  induction ty as [ | | | elem IH | elems IH | params returnTy IHp IHr | index ]
    using Ty_ind; simpl.
  - constructor.
  - constructor.
  - constructor.
  - now constructor.
  - constructor. now apply Forall2_map_printTy.
  - destruct (tyIsUnit returnTy) eqn:U.
    + apply (G_fn_elided tyIsUnit params (map printTy params) returnTy);
        [now apply Forall2_map_printTy | exact U].
    + apply (G_fn tyIsUnit params (map printTy params) returnTy (printTy returnTy));
        [now apply Forall2_map_printTy | exact U | exact IHr].
  - constructor.
Qed.

(** The grammar admits one rendering per type. *)
Lemma grammar_unique : forall ty s,
    TyGrammar tyIsUnit ty s -> s = printTy ty.
Proof.
  induction ty as [ | | | elem IH | elems IH | params returnTy IHp IHr | index ]
    using Ty_ind; intros s H; inversion H; subst; simpl; try reflexivity;
    repeat match goal with
      | F : Forall2 _ ?elems ?ss, A : Forall _ ?elems |- _ =>
          rewrite (Forall2_unique_printTy _ _ _ A F); clear F
      | G : TyGrammar _ ?t ?s', I : forall s, TyGrammar _ ?t s -> _ |- _ =>
          rewrite (I _ G); clear G
      | U : tyIsUnit _ = _ |- _ => rewrite U; clear U
      end;
    reflexivity.
Qed.

(** C4, as stated, fails: the rendering of the unit-returning function
    type [fn(Int)] is not a sentence of the grammar in which every
    function type shows its return type. *)
Lemma printTy_unit_fn_outside_spec_grammar :
  ~ SpecTyGrammar (TyFn [TyInt] (TyTuple [])) (printTy (TyFn [TyInt] (TyTuple []))).
Proof.
  unfold SpecTyGrammar; intros H.
  inversion H; subst; [| discriminate].
  repeat match goal with
    | F : Forall2 _ (_ :: _) _ |- _ => inversion F; subst; clear F
    | F : Forall2 _ [] _ |- _ => inversion F; subst; clear F
    | G : TyGrammar _ TyInt _ |- _ => inversion G; subst; clear G
    end.
  discriminate.
Qed.

(** C4, amended: [printTy] renders every semantic type by the fixed
    grammar: the primitives as [String], [Int], [Bool]; a list as its
    element in square brackets; a tuple as its parenthesized,
    comma-separated elements; a type variable as [?] and its index; a
    function type as [fn(], the comma-separated parameters and [)],
    followed by [: ] and the return type unless the return type is unit,
    in which case nothing follows the closing parenthesis.  The rendering
    is the only sentence of that grammar for the type. *)
Theorem printTy_grammar : forall (ty : Ty) (s : string),
    TyGrammar tyIsUnit ty s <-> s = printTy ty.
Proof.
  intros ty s; split.
  - apply grammar_unique.
  - intros ->; apply printTy_in_grammar.
Qed.

Lemma printTy_grammar_witness :
  TyGrammar tyIsUnit (TyFn [TyInt; TyList TyBool] (TyTuple []))
    "fn(Int, [Bool])"
  /\ TyGrammar tyIsUnit (TyFn [] (TyVar 3)) "fn(): ?3".
Proof.
  split; apply (proj2 (printTy_grammar _ _)); reflexivity.
Defined.

(* ================================================================== *)
(** * The resolver *)

(** Invert a successful [bind]: its first computation succeeded. *)
Ltac bind_inv H :=
  match type of H with
  | bind ?r _ = Ok _ =>
      let R := fresh "R" in
      destruct r eqn:R; cbn [bind] in H; [| discriminate H]
  end.

Ltac ok_inv H := inversion H; subst; clear H.

Section ResolverFacts.
Variable items : string -> option number.
Variable builtins : string -> bool.

Lemma stack_distance_Some : forall name locals i,
    Resolver.stack_distance name locals = Some i ->
    nth_error locals i = Some name /\ ~ In name (firstn i locals).
Proof.
  intros name; induction locals as [| n outer IH]; simpl; intros i H.
  - discriminate H.
  - destruct (String.eqb name n) eqn:E.
    + ok_inv H. apply String.eqb_eq in E; subst. split; [reflexivity | intros []].
    + destruct (Resolver.stack_distance name outer) as [j |]; [| discriminate H].
      ok_inv H. destruct (IH j eq_refl) as [Hn Hf]. simpl. split; [exact Hn |].
      intros [-> | Hin]; [| exact (Hf Hin)].
      now rewrite String.eqb_refl in E.
Qed.

Lemma stack_distance_None : forall name locals,
    Resolver.stack_distance name locals = None -> ~ In name locals.
Proof.
  intros name; induction locals as [| n outer IH]; simpl; intros H.
  - intros [].
  - destruct (String.eqb name n) eqn:E; [discriminate H |].
    destruct (Resolver.stack_distance name outer); [discriminate H |].
    intros [-> | Hin]; [| exact (IH eq_refl Hin)].
    now rewrite String.eqb_refl in E.
Qed.

Lemma resolve_ident_agrees : forall locals i i',
    Resolver.resolve_ident items builtins locals i = Ok i' ->
    Resolver.ident_agrees locals i'.
Proof.
  intros locals [name span res] i'; unfold Resolver.resolve_ident; simpl.
  destruct (Resolver.stack_distance name locals) as [d |] eqn:D.
  - intros H; ok_inv H. apply stack_distance_Some in D as [Hn Hf].
    unfold Resolver.ident_agrees; simpl. rewrite Nat2Z.id.
    repeat split; [lia | exact Hn | exact Hf].
  - apply stack_distance_None in D.
    destruct (items name); [intros H; ok_inv H; exact D |].
    destruct (builtins name); intros H; [ok_inv H; exact D | discriminate H].
Qed.

Lemma mapM_agrees : forall locals exprs exprs',
    Forall (fun e => forall locals e',
                Resolver.resolve_expr items builtins locals e = Ok e' ->
                Resolver.locals_agree locals e') exprs ->
    mapM (Resolver.resolve_expr items builtins locals) exprs = Ok exprs' ->
    All (Resolver.locals_agree locals) exprs'.
Proof.
  intros locals exprs exprs' Hall; revert exprs'.
  induction Hall as [| e exprs He _ IH]; simpl; intros exprs' H.
  - ok_inv H. exact I.
  - bind_inv H. bind_inv H. ok_inv H. simpl. split; [now apply He | now apply IH].
Qed.

Lemma resolve_expr_agrees : forall e locals e',
    Resolver.resolve_expr items builtins locals e = Ok e' ->
    Resolver.locals_agree locals e'.
Proof.
  induction e as
    [ span ty
    | name type_ rhs after span ty IHr IHa
    | exprs span ty IH
    | value span ty
    | value span ty
    | binaryKind lhs rhs span ty IHl IHr
    | unaryKind rhs span ty IHr
    | lhs args span ty IHl IH
    | cond then_ else_ span ty IHc IHt IHe ]
    using Expr_ind; intros locals e' H; simpl in H.
  - ok_inv H. exact I.
  - bind_inv H. bind_inv H. bind_inv H. ok_inv H. simpl.
    split; [now apply IHr | now apply IHa].
  - bind_inv H. ok_inv H. simpl. now apply (mapM_agrees locals exprs).
  - ok_inv H. exact I.
  - bind_inv H. ok_inv H. simpl. now apply (resolve_ident_agrees locals value).
  - bind_inv H. bind_inv H. ok_inv H. simpl.
    split; [now apply IHl | now apply IHr].
  - bind_inv H. ok_inv H. simpl. now apply IHr.
  - bind_inv H. bind_inv H. ok_inv H. simpl.
    split; [now apply IHl | now apply (mapM_agrees locals args)].
  - bind_inv H. bind_inv H. bind_inv H. ok_inv H. simpl.
    split; [now apply IHc | split; [now apply IHt |]].
    destruct else_ as [e |]; simpl in *.
    + match goal with R : bind _ _ = Ok _ |- _ => bind_inv R; ok_inv R end.
      now apply IHe.
    + match goal with R : Ok _ = Ok _ |- _ => ok_inv R end. exact I.
Qed.

End ResolverFacts.



(* ================================================================== *)
(** * Line spans *)

(** ** Reading a string at an offset *)

Lemma get_append_skip : forall (a b : string) (n : nat),
    String.get (String.length a + n) (a +:+ b) = String.get n b.
Proof.
  induction a as [| c a IH]; intros b n; simpl; [reflexivity | apply IH].
Qed.

Lemma get_append_here : forall (a b : string) (c : ascii),
    String.get (String.length a) (a +:+ String c b) = Some c.
Proof.
  intros a b c.
  rewrite <- (Nat.add_0_r (String.length a)), get_append_skip.
  reflexivity.
Qed.

Lemma substring_append_skip : forall (a b : string) (n m : nat),
    substring (String.length a + n) m (a +:+ b) = substring n m b.
Proof.
  induction a as [| c a IH]; intros b n m; simpl; [reflexivity | apply IH].
Qed.

Lemma substring_prefix : forall a b : string,
    substring 0 (String.length a) (a +:+ b) = a.
Proof.
  induction a as [| c a IH]; intros b; simpl.
  - destruct b; reflexivity.
  - now rewrite IH.
Qed.

(** The slice between two offsets of a concatenation is the middle
    part. *)
Lemma slice_middle : forall a l r : string,
    slice (a +:+ l +:+ r)
      (Z.of_nat (String.length a))
      (Z.of_nat (String.length a) + Z.of_nat (String.length l)) = l.
Proof.
  intros a l r. unfold slice. rewrite !append_length.
  set (la := String.length a). set (ll := String.length l).
  set (lr := String.length r).
  replace (Z.of_nat la <? 0) with false by (symmetry; apply Z.ltb_ge; lia).
  replace (Z.of_nat la + Z.of_nat ll <? 0) with false
    by (symmetry; apply Z.ltb_ge; lia).
  rewrite !Z.min_l by lia.
  replace (Z.to_nat (Z.of_nat la)) with (la + 0)%nat by lia.
  replace (Z.to_nat (Z.max (Z.of_nat la + Z.of_nat ll - Z.of_nat la) 0))
    with ll by lia.
  unfold la, ll. rewrite substring_append_skip. apply substring_prefix.
Qed.

(** ** The lines of an input *)

Lemma split_lines_cons : forall s, exists l ls, split_lines s = l :: ls.
Proof.
  induction s as [| c s (l & ls & IH)]; simpl.
  - now exists EmptyString, [].
  - destruct (Ascii.eqb c newline); [now eexists _, _ |].
    rewrite IH. now eexists _, _.
Qed.

Lemma split_lines_length : forall s,
    List.length (split_lines s) = S (count_newlines s).
Proof.
  induction s as [| c s IH]; simpl; [reflexivity |].
  destruct (Ascii.eqb c newline); simpl; [now rewrite IH |].
  destruct (split_lines_cons s) as (l & ls & E).
  rewrite E in *. exact IH.
Qed.

(** No line holds a newline character. *)
Lemma split_lines_no_newline : forall s,
    Forall (fun l => count_newlines l = 0%nat) (split_lines s).
Proof.
  induction s as [| c s IH]; simpl.
  - now constructor.
  - destruct (Ascii.eqb c newline) eqn:E; [now constructor |].
    destruct (split_lines s) as [| l ls]; [constructor; [simpl; now rewrite E | constructor] |].
    inversion IH; subst. constructor; [simpl; now rewrite E | assumption].
Qed.

(** The lines, put back together with newlines in between, are the
    input. *)
Lemma join_split_lines : forall s, join NL (split_lines s) = s.
Proof.
  induction s as [| c s IH]; simpl; [reflexivity |].
  destruct (Ascii.eqb c newline) eqn:E.
  - apply Ascii.eqb_eq in E; subst c.
    destruct (split_lines_cons s) as (l & ls & Es).
    rewrite Es in *. change (join NL (EmptyString :: l :: ls))
      with (EmptyString +:+ NL +:+ join NL (l :: ls)).
    now rewrite IH.
  - destruct (split_lines s) as [| l [| l' ls]].
    + simpl in IH; now subst.
    + simpl in *; now subst.
    + change (join NL (String c l :: l' :: ls))
        with (String c (l +:+ NL +:+ join NL (l' :: ls))).
      now rewrite <- IH.
Qed.

(** ** The loop of [lines] *)

Lemma bump_last_end_app : forall acc cur,
    bump_last_end (acc ++ [cur]) = acc ++ [mkSpan (start cur) (end_ cur + 1)].
Proof.
  induction acc as [| a acc IH]; intros cur; simpl; [reflexivity |].
  rewrite IH. destruct (acc ++ [cur]) eqn:E; [| reflexivity].
  now destruct acc.
Qed.

Lemma append_String_shift : forall (pre : string) (c : ascii) (rest : string),
    pre +:+ String c rest = (pre +:+ String c EmptyString) +:+ rest.
Proof.
  intros pre c rest. now rewrite append_assoc.
Qed.

(** The loop, started at offset [length pre] on the last span [cur] that
    ends there, lengthens [cur] by the first line of the rest and lays out
    the other lines after it. *)
Lemma lines_loop_spans : forall rest pre acc cur l ls,
    end_ cur = Z.of_nat (String.length pre) ->
    split_lines rest = l :: ls ->
    lines_loop (pre +:+ rest) (String.length rest)
      (Z.of_nat (String.length pre)) (acc ++ [cur])
    = acc ++ mkSpan (start cur) (end_ cur + Z.of_nat (String.length l))
          :: spans_of ls (end_ cur + Z.of_nat (String.length l) + 1).
Proof.
  induction rest as [| c rest IH]; intros pre acc cur l ls Hend Hsplit.
  - simpl in *. ok_inv Hsplit. simpl. destruct cur as [s e]; simpl.
    now rewrite Z.add_0_r.
  - cbn [String.length lines_loop].
    rewrite Nat2Z.id, get_append_here.
    assert (Hpre : Z.of_nat (String.length pre) + 1
                   = Z.of_nat (String.length (pre +:+ String c EmptyString)))
      by (rewrite append_length; simpl; lia).
    rewrite append_String_shift, Hpre.
    set (pre' := pre +:+ String c EmptyString) in *.
    simpl in Hsplit. destruct (Ascii.eqb c newline).
    + injection Hsplit as Hl Hls. subst l ls.
      destruct (split_lines_cons rest) as (l' & ls' & E).
      unfold push.
      rewrite (IH pre' (acc ++ [cur])
                 (mkSpan (Z.of_nat (String.length pre'))
                    (Z.of_nat (String.length pre'))) l' ls' eq_refl E), E.
      rewrite <- app_assoc. simpl. rewrite Z.add_0_r, <- Hpre.
      destruct cur as [s e]; simpl in *. now subst e.
    + destruct (split_lines_cons rest) as (l' & ls' & E).
      rewrite E in Hsplit. injection Hsplit as Hl Hls. subst l ls.
      rewrite bump_last_end_app.
      rewrite (IH pre' acc (mkSpan (start cur) (end_ cur + 1)) l' ls');
        [| simpl; lia | exact E].
      cbn [start end_ String.length].
      do 3 f_equal; lia.
Qed.

(** [lines] lays out the lines of the input from offset 0. *)
Lemma lines_spans_of : forall input,
    lines input = spans_of (split_lines input) 0.
Proof.
  intros input. destruct (split_lines_cons input) as (l & ls & E).
  unfold lines.
  change (lines_loop input (String.length input) 0 [mkSpan 0 0])
    with (lines_loop (EmptyString +:+ input) (String.length input)
            (Z.of_nat (String.length EmptyString)) ([] ++ [mkSpan 0 0])).
  rewrite (lines_loop_spans input EmptyString [] (mkSpan 0 0) l ls eq_refl E).
  rewrite E. reflexivity.
Qed.

(** ** The layout of consecutive lines *)

Lemma join_cons2 : forall sep l l' ls,
    join sep (l :: l' :: ls) = l +:+ sep +:+ join sep (l' :: ls).
Proof. reflexivity. Qed.

Lemma spans_of_length : forall ls off,
    List.length (spans_of ls off) = List.length ls.
Proof.
  induction ls as [| l ls IH]; intros off; simpl; [reflexivity |].
  now rewrite IH.
Qed.

(** Every span of a layout starts at or after the offset of the layout,
    ends at or after its own start, and ends within the laid-out text. *)
Lemma spans_of_bounds : forall ls off,
    Forall (fun sp => off <= start sp <= end_ sp
                      /\ end_ sp <= off + Z.of_nat (String.length (join NL ls)))
           (spans_of ls off).
Proof.
  induction ls as [| l ls IH]; intros off; cbn [spans_of]; [constructor |].
  destruct ls as [| l' ls].
  - constructor; [| constructor]. cbn [start end_ join]. lia.
  - rewrite join_cons2, !append_length.
    change (String.length NL) with 1%nat.
    constructor; [cbn [start end_]; lia |].
    eapply Forall_impl; [| apply IH]. intros sp [Hs He]. lia.
Qed.

Lemma spans_of_sorted : forall ls off,
    StronglySorted (fun a b => end_ a < start b) (spans_of ls off).
Proof.
  induction ls as [| l ls IH]; intros off; simpl; constructor.
  - apply IH.
  - eapply Forall_impl; [| apply spans_of_bounds].
    intros sp [Hs _]; simpl; lia.
Qed.

(** The text under the spans of a layout is the lines laid out. *)
Lemma spans_of_slices : forall ls pre,
    map (fun sp => slice (pre +:+ join NL ls) (start sp) (end_ sp))
        (spans_of ls (Z.of_nat (String.length pre)))
    = ls.
Proof.
  induction ls as [| l ls IH]; intros pre; [reflexivity |].
  destruct ls as [| l' ls].
  - simpl. f_equal.
    rewrite <- (append_empty_r l) at 1. apply slice_middle.
  - rewrite join_cons2. cbn [spans_of map start end_]. f_equal.
    + apply slice_middle.
    + specialize (IH (pre +:+ l +:+ NL)).
      rewrite !append_assoc in IH.
      rewrite !append_length in IH. simpl String.length in IH.
      replace (Z.of_nat (String.length pre) + Z.of_nat (String.length l) + 1)
        with (Z.of_nat (String.length pre + (String.length l + 1))) by lia.
      exact IH.
Qed.

(** Every position of a layout that does not hold a newline lies in one
    of its spans. *)
Lemma spans_of_cover : forall ls off i,
    off <= i < off + Z.of_nat (String.length (join NL ls)) ->
    String.get (Z.to_nat (i - off)) (join NL ls) <> Some newline ->
    exists k sp, nth_error (spans_of ls off) k = Some sp /\ in_span i sp.
Proof.
  induction ls as [| l ls IH]; intros off i Hi Hc; [simpl in Hi; lia |].
  destruct (Z_lt_ge_dec i (off + Z.of_nat (String.length l))) as [Hlt | Hge].
  - exists 0%nat, (mkSpan off (off + Z.of_nat (String.length l))).
    split; [reflexivity | unfold in_span; simpl; lia].
  - destruct ls as [| l' ls]; [simpl in Hi; lia |].
    rewrite join_cons2 in Hi, Hc. rewrite !append_length in Hi.
    change (String.length NL) with 1%nat in Hi.
    destruct (Z.eq_dec i (off + Z.of_nat (String.length l))) as [-> | Hne].
    + exfalso; apply Hc.
      replace (Z.to_nat (off + Z.of_nat (String.length l) - off))
        with (String.length l) by lia.
      apply get_append_here.
    + destruct (IH (off + Z.of_nat (String.length l) + 1) i) as (k & sp & Hk & Hin).
      * lia.
      * intros G; apply Hc.
        replace (Z.to_nat (i - off))
          with (String.length l
                + S (Z.to_nat (i - (off + Z.of_nat (String.length l) + 1))))%nat
          by lia.
        rewrite get_append_skip. exact G.
      * exists (S k), sp. split; [exact Hk | exact Hin].
Qed.

(** In a list of spans in strictly increasing order a position lies in
    at most one span. *)
Lemma sorted_spans_disjoint : forall spans,
    StronglySorted (fun a b => end_ a < start b) spans ->
    forall i k k' sp sp',
      nth_error spans k = Some sp -> in_span i sp ->
      nth_error spans k' = Some sp' -> in_span i sp' ->
      k = k'.
Proof.
  induction 1 as [| a spans Hs IH Ha]; intros i k k' sp sp' Hk Hin Hk' Hin'.
  - destruct k; discriminate Hk.
  - rewrite Forall_forall in Ha. unfold in_span in *.
    destruct k as [| k], k' as [| k']; simpl in *.
    + reflexivity.
    + ok_inv Hk. apply nth_error_In in Hk'. specialize (Ha _ Hk'). lia.
    + ok_inv Hk'. apply nth_error_In in Hk. specialize (Ha _ Hk). lia.
    + f_equal. eapply IH; eassumption.
Qed.

(** C10: [lines] returns one span per source line.  There is one span
    more than there are newline characters; every span has
    [0 <= start <= end <= input.length]; the spans are in increasing
    order, each ending before the next starts; the text under the spans
    is, in order, the lines of the input, none of which holds a newline;
    and every position that does not hold a newline lies in exactly one
    span. *)
Theorem lines_one_span_per_line : forall input : string,
    List.length (lines input) = S (count_newlines input)
    /\ Forall (fun sp => 0 <= start sp <= end_ sp
                         /\ end_ sp <= Z.of_nat (String.length input))
              (lines input)
    /\ StronglySorted (fun a b => end_ a < start b) (lines input)
    /\ map (fun sp => slice input (start sp) (end_ sp)) (lines input)
       = split_lines input
    /\ Forall (fun sp =>
                 count_newlines (slice input (start sp) (end_ sp)) = 0%nat)
              (lines input)
    /\ (forall i : number,
           0 <= i < Z.of_nat (String.length input) ->
           String.get (Z.to_nat i) input <> Some newline ->
           exists k sp,
             nth_error (lines input) k = Some sp /\ in_span i sp
             /\ forall k' sp',
                 nth_error (lines input) k' = Some sp' -> in_span i sp' ->
                 k' = k).
Proof.
  intros input. rewrite lines_spans_of.
  pose proof (join_split_lines input) as J.
  pose proof (spans_of_slices (split_lines input) EmptyString) as S.
  rewrite J in S. simpl in S.
  pose proof (spans_of_sorted (split_lines input) 0) as So.
  split; [| split; [| split; [| split; [| split]]]].
  - now rewrite spans_of_length, split_lines_length.
  - pose proof (spans_of_bounds (split_lines input) 0) as B.
    now rewrite J in B.
  - exact So.
  - exact S.
  - pose proof (split_lines_no_newline input) as N.
    rewrite <- S in N at 1. rewrite Forall_map in N. exact N.
  - intros i Hi Hc.
    destruct (spans_of_cover (split_lines input) 0 i) as (k & sp & Hk & Hin).
    + now rewrite J.
    + now rewrite J, Z.sub_0_r.
    + exists k, sp. split; [exact Hk | split; [exact Hin |]].
      intros k' sp' Hk' Hin'.
      exact (sorted_spans_disjoint _ So i k' k sp' sp Hk' Hin' Hk Hin).
Qed.

Lemma lines_one_span_per_line_witness :
  exists k sp,
    nth_error (lines ("ab" +:+ NL +:+ "c")) k = Some sp /\ in_span 3 sp
    /\ forall k' sp',
        nth_error (lines ("ab" +:+ NL +:+ "c")) k' = Some sp' ->
        in_span 3 sp' -> k' = k.
Proof.
  apply (proj2 (proj2 (proj2 (proj2 (proj2
           (lines_one_span_per_line ("ab" +:+ NL +:+ "c")))))) 3).
  - simpl; lia.
  - discriminate.
Defined.

(* ================================================================== *)
(** * More on the fold framework *)

(** X1: With any folder, the structural default on written types keeps the
    span and the kind of the node, and the children of the result are the
    handler results of the children of the input, in the same order. *)
Theorem superFoldType_keeps_non_tree_fields :
  forall (folder : Folder) (t : Type_),
    Type_span (superFoldType t folder) = Type_span t
    /\ Type_tag (superFoldType t folder) = Type_tag t
    /\ Type_children (superFoldType t folder)
       = map (fold_child folder) (Type_children t).
Proof.
  intros folder [k span ty]; destruct k as [value | elem | elems];
    repeat split; unfold Type_children; simpl.
  now rewrite !map_map.
Qed.

(** X2: Folding with the default folder a second time changes nothing. *)
Theorem fold_ast_default_idempotent : forall ast : Ast,
    fold_ast (fold_ast ast DEFAULT_FOLDER) DEFAULT_FOLDER
    = fold_ast ast DEFAULT_FOLDER.
Proof.
  intros ast. unfold fold_ast. rewrite map_map.
  apply map_ext. intros i.
  destruct (DEFAULT_item_drops_ty i) as (_ & Hn & _).
  destruct (DEFAULT_item_drops_ty (DEFAULT_item i)) as (_ & _ & Hf).
  exact (Hf Hn).
Qed.

(* ================================================================== *)
(** * The printer does not read the semantic-type annotation *)

Lemma All2_map_eq {A B} (R : A -> A -> Prop) (f : A -> B) : forall la,
    Forall (fun x => forall y, R x y -> f x = f y) la ->
    forall lb, All2 R la lb -> map f la = map f lb.
Proof.
  induction 1 as [| x la Hx _ IH]; intros [| y lb] H; simpl in *;
    try contradiction; [reflexivity |].
  destruct H as [Hxy Hl]. now rewrite (Hx y Hxy), (IH lb Hl).
Qed.

Lemma All2_length {A} (R : A -> A -> Prop) : forall la lb,
    All2 R la lb -> List.length la = List.length lb.
Proof.
  induction la as [| x la IH]; intros [| y lb] H; simpl in *;
    try contradiction; [reflexivity |].
  destruct H as [_ Hl]. now rewrite (IH lb Hl).
Qed.

Lemma All2_nth_error {A} (R : A -> A -> Prop) : forall la lb n,
    All2 R la lb ->
    match nth_error la n, nth_error lb n with
    | Some x, Some y => R x y
    | None, None => True
    | _, _ => False
    end.
Proof.
  induction la as [| x la IH]; intros [| y lb] n H; simpl in *;
    try contradiction.
  - destruct n; exact I.
  - destruct H as [Hxy Hl]. destruct n as [| n]; simpl; [exact Hxy |].
    apply IH, Hl.
Qed.

Lemma printType_same_but_ty : forall a b,
    Type_same_but_ty a b -> printType a = printType b.
Proof.
  induction a as [value span ty | elem span ty IH | elems span ty IH]
    using Type_ind; intros [kb sb tb] [_ H]; destruct kb; simpl in *;
    try contradiction.
  - now subst.
  - now rewrite (IH _ H).
  - now rewrite (All2_map_eq _ printType _ IH _ H).
Qed.

Lemma last_is_empty_same_but_ty : forall la lb,
    All2 Expr_same_but_ty la lb -> last_is_empty la = last_is_empty lb.
Proof.
  intros la lb H. unfold last_is_empty.
  rewrite <- (All2_length _ _ _ H).
  pose proof (All2_nth_error _ _ _ (List.length la - 1)%nat H) as N.
  destruct (nth_error la (List.length la - 1)) as [[ka sa ta] |],
           (nth_error lb (List.length la - 1)) as [[kb sb tb] |];
    try contradiction; [| reflexivity].
  destruct N as [_ N]. destruct ka, kb; simpl in *; try contradiction;
    reflexivity.
Qed.

Lemma printExpr_same_but_ty : forall a b,
    Expr_same_but_ty a b -> forall indent, printExpr a indent = printExpr b indent.
Proof.
  induction a as
    [ span ty
    | name type_ rhs after span ty IHr IHa
    | exprs span ty IH
    | value span ty
    | value span ty
    | binaryKind lhs rhs span ty IHl IHr
    | unaryKind rhs span ty IHr
    | lhs args span ty IHl IH
    | cond then_ else_ span ty IHc IHt IHe ]
    using Expr_ind; intros [kb sb tb] [_ H] indent;
    destruct kb as [ | nb typeb rb ab | exprsb | vb | vb | kb lb rb | kb rb
                   | lb argsb | cb thenb elseb ];
    simpl in H; try contradiction.
  - reflexivity.
  - destruct H as (-> & Ht & Hr & Ha). simpl.
    rewrite (IHr _ Hr), (IHa _ Ha).
    destruct type_ as [ta |], typeb as [tb' |]; simpl in Ht; try contradiction;
      [now rewrite (printType_same_but_ty _ _ Ht) | reflexivity].
  - simpl.
    rewrite (All2_map_eq Expr_same_but_ty
               (fun e => printExpr e (indent + 1)) exprs) with (lb := exprsb);
      [| eapply Forall_impl; [| exact IH]; intros e He y Hy; now apply He
       | exact H].
    now rewrite (last_is_empty_same_but_ty _ _ H).
  - now subst.
  - now subst.
  - destruct H as (-> & Hl & Hr). simpl. now rewrite (IHl _ Hl), (IHr _ Hr).
  - destruct H as (-> & Hr). simpl. now rewrite (IHr _ Hr).
  - destruct H as (Hl & Ha). simpl. rewrite (IHl _ Hl).
    rewrite (All2_map_eq Expr_same_but_ty
               (fun e => printExpr e (indent + 1)) args) with (lb := argsb);
      [reflexivity
      | eapply Forall_impl; [| exact IH]; intros e He y Hy; now apply He
      | exact Ha].
  - destruct H as (Hc & Ht & He). simpl. rewrite (IHc _ Hc), (IHt _ Ht).
    destruct else_ as [ea |], elseb as [eb |]; simpl in *; try contradiction;
      [now rewrite (IHe _ He) | reflexivity].
Qed.

Lemma printItem_same_but_ty : forall a b,
    Item_same_but_ty a b -> printItem a = printItem b.
Proof.
  intros [[[na aa ba ra]] sa ia] [[[nb ab bb rb]] sb ib] (_ & _ & H).
  simpl in H. destruct H as (-> & Hargs & Hb & Hr).
  unfold printItem, printFunction;
    cbn [item_kind fn_name fn_args fn_body fn_returnType].
  rewrite (printExpr_same_but_ty _ _ Hb).
  rewrite (All2_map_eq Arg_same_but_ty
             (fun a => arg_name a +:+ ": " +:+ printType (arg_type a)) aa)
    with (lb := ab); [| | exact Hargs].
  - destruct ra as [ta |], rb as [tb |]; simpl in Hr; try contradiction;
      [now rewrite (printType_same_but_ty _ _ Hr) | reflexivity].
  - apply Forall_forall. intros x _ y (Hn & _ & Ht).
    now rewrite Hn, (printType_same_but_ty _ _ Ht).
Qed.

(** X3: Two trees that are equal in every field but [ty] are rendered alike:
    [printAst] never shows a semantic-type annotation. *)
Theorem printAst_ignores_ty : forall a b : Ast,
    Ast_same_but_ty a b -> printAst a = printAst b.
Proof.
  intros a b H. unfold printAst. f_equal.
  apply (All2_map_eq Item_same_but_ty printItem a); [| exact H].
  apply Forall_forall. intros x _ y Hxy. now apply printItem_same_but_ty.
Qed.

Lemma printAst_ignores_ty_witness :
  printAst one_ast = printAst (fold_ast one_ast DEFAULT_FOLDER).
Proof.
  apply (printAst_ignores_ty one_ast (fold_ast one_ast DEFAULT_FOLDER)).
  simpl. repeat split.
Defined.

(** X4: The default fold does not change the rendering of a tree. *)
Theorem printAst_fold_ast_default : forall ast : Ast,
    printAst (fold_ast ast DEFAULT_FOLDER) = printAst ast.
Proof.
  intros ast. unfold printAst, fold_ast. rewrite map_map. f_equal.
  apply map_ext. intros i. symmetry. apply printItem_same_but_ty.
  now destruct (DEFAULT_item_drops_ty i) as (Hs & _ & _).
Qed.

(* ================================================================== *)
(** * The layout of the rendering *)

Lemma join_app : forall (sep : string) (l1 l2 : list string),
    l1 <> [] -> l2 <> [] ->
    join sep (l1 ++ l2) = join sep l1 +:+ sep +:+ join sep l2.
Proof.
  induction l1 as [| x l1 IH]; intros l2 H1 H2; [contradiction |].
  destruct l1 as [| y l1].
  - destruct l2 as [| z l2]; [contradiction | reflexivity].
  - change (join sep ((x :: y :: l1) ++ l2))
      with (x +:+ sep +:+ join sep ((y :: l1) ++ l2)).
    rewrite IH by (assumption || discriminate).
    rewrite join_cons2, !append_assoc. reflexivity.
Qed.

(** X5: The rendering of a program made of two non-empty item sequences is
    the two renderings with one newline in between. *)
Theorem printAst_app : forall a b : Ast,
    a <> [] -> b <> [] ->
    printAst (a ++ b) = printAst a +:+ NL +:+ printAst b.
Proof.
  intros a b Ha Hb. unfold printAst. rewrite map_app.
  apply join_app.
  - destruct a; [contradiction | discriminate].
  - destruct b; [contradiction | discriminate].
Qed.

Lemma printAst_app_witness :
  printAst (add_ast ++ one_ast)
  = printAst add_ast +:+ NL +:+ printAst one_ast.
Proof.
  apply (printAst_app add_ast one_ast); discriminate.
Defined.

Lemma repeat_two_spaces : forall n : nat,
    repeat_ "  " n = repeat_ " " (2 * n).
Proof.
  induction n as [| n IH]; [reflexivity |].
  replace (2 * S n)%nat with (S (S (2 * n))) by lia.
  simpl repeat_ at 1. cbn [repeat_]. rewrite IH. reflexivity.
Qed.

(** X6: One level of indentation is four spaces: [ind] is a run of
    [4 * indent] spaces, and a line break is a newline followed by it. *)
Theorem ind_four_spaces : forall indent : nat,
    ind indent = repeat_ " " (4 * indent)
    /\ linebreak indent = String newline (repeat_ " " (4 * indent))
    /\ String.length (linebreak indent) = (1 + 4 * indent)%nat.
Proof.
  intros indent.
  assert (H : ind indent = repeat_ " " (4 * indent)).
  { unfold ind. rewrite repeat_two_spaces. f_equal. lia. }
  assert (L : forall n, String.length (repeat_ " " n) = n).
  { induction n as [| n IH]; simpl; [reflexivity | now rewrite IH]. }
  split; [exact H | split].
  - unfold linebreak. now rewrite H.
  - unfold linebreak. rewrite H. simpl. now rewrite L.
Qed.

(* ================================================================== *)
(** * More on the operator tables *)

(** X7: [binaryExprPrecedenceClass] returns a class exactly for the eight
    operators that are not arithmetic; a returned class lies between 1
    and 8, never 0; and two operators with the same returned class are the
    same operator. *)
Theorem binaryExprPrecedenceClass_domain :
  (forall k, (exists c, binaryExprPrecedenceClass k = Ok c)
             <-> includes ARITH_KINDS k = false)
  /\ (forall k c, binaryExprPrecedenceClass k = Ok c -> 1 <= c <= 8)
  /\ (forall a b c,
         binaryExprPrecedenceClass a = Ok c ->
         binaryExprPrecedenceClass b = Ok c -> a = b).
Proof.
  split; [| split].
  - intros k; split.
    + intros [c H]. destruct k; try reflexivity; discriminate H.
    + intros H. destruct k; try discriminate H; eexists; reflexivity.
  - intros k c H. destruct k; try discriminate H; inversion H; lia.
  - intros a b c Ha Hb.
    destruct a; try discriminate Ha; inversion Ha; subst c;
      destruct b; try discriminate Hb; reflexivity.
Qed.

Lemma binaryExprPrecedenceClass_domain_witness :
  1 <= 4 <= 8.
Proof.
  apply (proj1 (proj2 binaryExprPrecedenceClass_domain) BkGt 4).
  reflexivity.
Defined.

(** X8: Every binary operator occurs in exactly one of the lists
    [ARITH_TERM_KINDS], [ARITH_FACTOR_KINDS], [LOGICAL_KINDS] and
    [COMPARISON_KINDS], and [EQUALITY_KINDS] lies within
    [COMPARISON_KINDS]. *)
Theorem operator_kinds_partition : forall k : BinaryKind,
    occurrences
      [ARITH_TERM_KINDS; ARITH_FACTOR_KINDS; LOGICAL_KINDS; COMPARISON_KINDS] k
    = 1%nat
    /\ (includes EQUALITY_KINDS k = true -> includes COMPARISON_KINDS k = true).
Proof.
  intros k; destruct k; split; try reflexivity; intros H; discriminate H.
Qed.

(* ================================================================== *)
(** * Merging spans *)

(** X9: The merge of two spans covers both, and every span that covers both
    covers the merge: it is the least span around the two.  If one of
    the two has its start at or before its end, so has the merge. *)
Theorem spanMerge_least_cover : forall a b : Span,
    (start (ErrorReport.spanMerge a b) <= start a
     /\ start (ErrorReport.spanMerge a b) <= start b
     /\ end_ a <= end_ (ErrorReport.spanMerge a b)
     /\ end_ b <= end_ (ErrorReport.spanMerge a b))
    /\ (forall c : Span,
           start c <= start a -> start c <= start b ->
           end_ a <= end_ c -> end_ b <= end_ c ->
           start c <= start (ErrorReport.spanMerge a b)
           /\ end_ (ErrorReport.spanMerge a b) <= end_ c)
    /\ (start a <= end_ a \/ start b <= end_ b ->
        start (ErrorReport.spanMerge a b) <= end_ (ErrorReport.spanMerge a b)).
Proof.
  intros [sa ea] [sb eb]; unfold ErrorReport.spanMerge; simpl.
  repeat split; try lia.
Qed.

Lemma spanMerge_least_cover_witness :
  start (mkSpan 2 9) <= start (ErrorReport.spanMerge (mkSpan 3 5) (mkSpan 4 8))
  /\ end_ (ErrorReport.spanMerge (mkSpan 3 5) (mkSpan 4 8)) <= end_ (mkSpan 2 9).
Proof.
  apply (proj1 (proj2 (spanMerge_least_cover (mkSpan 3 5) (mkSpan 4 8)))
           (mkSpan 2 9)); simpl; lia.
Defined.

(** X10: Merging spans is idempotent, commutative and associative. *)
Theorem spanMerge_semilattice : forall a b c : Span,
    ErrorReport.spanMerge a a = a
    /\ ErrorReport.spanMerge a b = ErrorReport.spanMerge b a
    /\ ErrorReport.spanMerge a (ErrorReport.spanMerge b c)
       = ErrorReport.spanMerge (ErrorReport.spanMerge a b) c.
Proof.
  intros [sa ea] [sb eb] [sc ec]; unfold ErrorReport.spanMerge; simpl.
  repeat split; f_equal; lia.
Qed.

(* ================================================================== *)
(** * More on line spans *)

(** ** Prefixes and newline counts *)

Lemma substring_0_app_l : forall (a b : string) (n : nat),
    (n <= String.length a)%nat ->
    substring 0 n (a +:+ b) = substring 0 n a.
Proof.
  induction a as [| c a IH]; intros b n Hn; simpl in *.
  - replace n with 0%nat by lia. destruct b; reflexivity.
  - destruct n as [| n]; [reflexivity |]. rewrite IH by lia. reflexivity.
Qed.

Lemma substring_0_app_r : forall (a b : string) (n : nat),
    substring 0 (String.length a + n) (a +:+ b) = a +:+ substring 0 n b.
Proof.
  induction a as [| c a IH]; intros b n; simpl; [reflexivity |].
  now rewrite IH.
Qed.

Lemma count_newlines_app : forall a b : string,
    count_newlines (a +:+ b) = (count_newlines a + count_newlines b)%nat.
Proof.
  induction a as [| c a IH]; intros b; simpl; [reflexivity |].
  destruct (Ascii.eqb c newline); rewrite IH; reflexivity.
Qed.

Lemma count_newlines_prefix : forall (a : string) (n : nat),
    count_newlines a = 0%nat -> count_newlines (substring 0 n a) = 0%nat.
Proof.
  induction a as [| c a IH]; intros n H; simpl in *.
  - destruct n; reflexivity.
  - destruct n as [| n]; [reflexivity |]. simpl.
    destruct (Ascii.eqb c newline); [discriminate H | now apply IH].
Qed.

(** ** Spans of a layout, one after the other *)

Lemma spans_of_shift : forall ls off d,
    spans_of ls (off + d) = map (ErrorReport.shift d) (spans_of ls off).
Proof.
  induction ls as [| l ls IH]; intros off d; simpl; [reflexivity |].
  unfold ErrorReport.shift at 1; simpl. f_equal; [f_equal; lia |].
  rewrite <- IH. f_equal. lia.
Qed.

Lemma spans_of_cons : forall l ls off,
    spans_of (l :: ls) off
    = mkSpan off (off + Z.of_nat (String.length l))
        :: spans_of ls (off + Z.of_nat (String.length l) + 1).
Proof. reflexivity. Qed.

Lemma spans_of_app : forall l1 l2 off,
    l1 <> [] ->
    spans_of (l1 ++ l2) off
    = spans_of l1 off
        ++ spans_of l2 (off + Z.of_nat (String.length (join NL l1)) + 1).
Proof.
  induction l1 as [| l l1 IH]; intros l2 off H; [contradiction |].
  destruct l1 as [| l' l1].
  - reflexivity.
  - rewrite <- app_comm_cons, !(spans_of_cons l).
    rewrite <- (app_comm_cons (spans_of (l' :: l1) _)).
    f_equal. rewrite IH by discriminate.
    rewrite (join_cons2 NL l), !append_length.
    change (String.length NL) with 1%nat. do 2 f_equal. lia.
Qed.

Lemma split_lines_app : forall a b : string,
    split_lines (a +:+ NL +:+ b) = split_lines a ++ split_lines b.
Proof.
  induction a as [| c a IH]; intros b; [reflexivity |].
  cbn [String.append split_lines]. rewrite IH.
  destruct (Ascii.eqb c newline); [reflexivity |].
  destruct (split_lines_cons a) as (l & ls & E). now rewrite E.
Qed.

Lemma spans_of_consecutive : forall ls off k a b,
    nth_error (spans_of ls off) k = Some a ->
    nth_error (spans_of ls off) (S k) = Some b ->
    start b = end_ a + 1.
Proof.
  induction ls as [| l ls IH]; intros off k a b Ha Hb;
    [destruct k; discriminate Ha |].
  destruct k as [| k]; simpl in Ha, Hb.
  - ok_inv Ha. destruct ls; simpl in Hb; [discriminate Hb |].
    now ok_inv Hb.
  - eapply IH; eassumption.
Qed.

Lemma spans_of_last : forall ls off l,
    end_ (last (spans_of (l :: ls) off) DUMMY_SPAN)
    = off + Z.of_nat (String.length (join NL (l :: ls))).
Proof.
  induction ls as [| l' ls IH]; intros off l; [reflexivity |].
  change (last (spans_of (l :: l' :: ls) off) DUMMY_SPAN)
    with (last (spans_of (l' :: ls) (off + Z.of_nat (String.length l) + 1))
            DUMMY_SPAN).
  rewrite IH, join_cons2, !append_length.
  change (String.length NL) with 1%nat. lia.
Qed.

(** X11: The spans of [lines] tile the input: the first starts at offset 0,
    each next one starts one character after the end of the one before,
    and the last ends at the end of the input. *)
Theorem lines_tile_input : forall input : string,
    (exists first rest, lines input = first :: rest /\ start first = 0)
    /\ (forall k a b,
           nth_error (lines input) k = Some a ->
           nth_error (lines input) (S k) = Some b ->
           start b = end_ a + 1)
    /\ end_ (last (lines input) DUMMY_SPAN) = Z.of_nat (String.length input).
Proof.
  intros input. rewrite lines_spans_of.
  destruct (split_lines_cons input) as (l & ls & E).
  pose proof (join_split_lines input) as J. rewrite E in *.
  split; [| split].
  - now eexists _, _.
  - apply spans_of_consecutive.
  - now rewrite spans_of_last, J.
Qed.

(** X12: The line spans of two inputs put together with a newline in between
    are the spans of the first followed by the spans of the second moved
    past the first and the newline. *)
Theorem lines_app : forall a b : string,
    lines (a +:+ NL +:+ b)
    = lines a
        ++ map (ErrorReport.shift (Z.of_nat (String.length a) + 1)) (lines b).
Proof.
  intros a b. rewrite !lines_spans_of, split_lines_app.
  destruct (split_lines_cons a) as (l & ls & E).
  rewrite spans_of_app by (rewrite E; discriminate).
  rewrite join_split_lines, <- spans_of_shift. reflexivity.
Qed.

(** X13: Reading the snippet under each line span and joining the snippets
    with newlines gives back the input, for an input shorter than
    [Number.MAX_SAFE_INTEGER]. *)
Theorem lines_snippets_roundtrip : forall input : string,
    Z.of_nat (String.length input) < ErrorReport.MAX_SAFE_INTEGER ->
    join NL (map (ErrorReport.spanToSnippet input) (lines input)) = input.
Proof.
  intros input Hlen.
  rewrite <- (join_split_lines input) at 3. f_equal.
  pose proof (spans_of_slices (split_lines input) EmptyString) as S.
  rewrite join_split_lines in S. simpl in S.
  rewrite <- S at 1. rewrite lines_spans_of.
  apply map_ext_in. intros sp Hin.
  pose proof (spans_of_bounds (split_lines input) 0) as B.
  rewrite join_split_lines, Forall_forall in B. specialize (B sp Hin).
  unfold ErrorReport.spanToSnippet.
  replace (start sp =? ErrorReport.MAX_SAFE_INTEGER) with false;
    [reflexivity | symmetry; apply Z.eqb_neq; lia].
Qed.

Lemma lines_snippets_roundtrip_witness :
  join NL (map (ErrorReport.spanToSnippet ("ab" +:+ NL +:+ "c"))
             (lines ("ab" +:+ NL +:+ "c")))
  = "ab" +:+ NL +:+ "c".
Proof.
  apply (lines_snippets_roundtrip ("ab" +:+ NL +:+ "c")).
  reflexivity.
Defined.

(* ================================================================== *)
(** * Error reports *)

(** ** Finding the line of an offset *)

Lemma find_all_false {A} (p : A -> bool) : forall l,
    Forall (fun x => p x = false) l -> List.find p l = None.
Proof.
  induction 1 as [| x l Hx _ IH]; simpl; [reflexivity |].
  now rewrite Hx.
Qed.

(** In a layout of newline-free lines, the first span that holds an
    offset of the layout is the span whose index is the number of
    newlines before the offset. *)
Lemma layout_find : forall ls off s,
    Forall (fun l => count_newlines l = 0%nat) ls -> ls <> [] ->
    off <= s <= off + Z.of_nat (String.length (join NL ls)) ->
    exists sp,
      List.find (ErrorReport.holds s) (spans_of ls off) = Some sp
      /\ nth_error (spans_of ls off)
           (count_newlines (substring 0 (Z.to_nat (s - off)) (join NL ls)))
         = Some sp
      /\ start sp <= s <= end_ sp.
Proof.
  induction ls as [| l ls IH]; intros off s Hnl Hne Hs; [contradiction |].
  inversion Hnl as [| ? ? Hl Hls]; subst.
  rewrite spans_of_cons.
  destruct (Z_le_gt_dec s (off + Z.of_nat (String.length l))) as [Hle | Hgt].
  - exists (mkSpan off (off + Z.of_nat (String.length l))).
    split; [| split].
    + simpl. unfold ErrorReport.holds; simpl.
      replace (off <=? s) with true by (symmetry; apply Z.leb_le; lia).
      replace (off + Z.of_nat (String.length l) >=? s) with true
        by (symmetry; apply Z.geb_le; lia).
      reflexivity.
    + assert (C : count_newlines
                    (substring 0 (Z.to_nat (s - off)) (join NL (l :: ls)))
                  = 0%nat).
      { destruct ls as [| l' ls].
        - now apply count_newlines_prefix.
        - rewrite join_cons2, substring_0_app_l by lia.
          now apply count_newlines_prefix. }
      now rewrite C.
    + simpl; lia.
  - destruct ls as [| l' ls]; [simpl in Hs; lia |].
    rewrite join_cons2 in *. rewrite !append_length in Hs.
    change (String.length NL) with 1%nat in Hs.
    destruct (IH (off + Z.of_nat (String.length l) + 1) s Hls)
      as (sp & Hf & Hn & Hb); [discriminate | lia |].
    exists sp. split; [| split; [| exact Hb]].
    + simpl List.find. unfold ErrorReport.holds at 1; simpl.
      replace (off + Z.of_nat (String.length l) >=? s) with false
        by (symmetry; rewrite Z.geb_leb; apply Z.leb_gt; lia).
      rewrite andb_false_r. exact Hf.
    + replace (Z.to_nat (s - off))
        with (String.length l
              + S (Z.to_nat (s - (off + Z.of_nat (String.length l) + 1))))%nat
        by lia.
      rewrite substring_0_app_r. simpl substring.
      rewrite count_newlines_app, Hl. simpl. exact Hn.
Qed.

(** ** The index of a span of [lines] *)

Lemma indexOf_from_sorted : forall spans,
    StronglySorted (fun a b => end_ a < start b) spans ->
    Forall (fun sp => start sp <= end_ sp) spans ->
    forall k sp i,
      nth_error spans k = Some sp ->
      ErrorReport.indexOf_from spans sp i = i + Z.of_nat k.
Proof.
  induction 1 as [| a spans Hs IH Ha]; intros Hwf k sp i Hk.
  - destruct k; discriminate Hk.
  - inversion Hwf as [| ? ? Hwa Hwl]; subst.
    destruct k as [| k]; simpl in *.
    + ok_inv Hk. unfold ErrorReport.Span_eqb. rewrite !Z.eqb_refl. simpl. lia.
    + pose proof Hk as Hin. apply nth_error_In in Hin.
      pose proof (proj1 (Forall_forall _ _) Ha _ Hin) as Hlt.
      pose proof (proj1 (Forall_forall _ _) Hwl _ Hin) as Hsp.
      cbv beta in Hlt, Hsp. unfold ErrorReport.Span_eqb.
      replace (end_ a =? end_ sp) with false
        by (symmetry; apply Z.eqb_neq; lia).
      rewrite andb_false_r, (IH Hwl k sp (i + 1) Hk). lia.
Qed.

Lemma lines_well_formed : forall input,
    Forall (fun sp => start sp <= end_ sp) (lines input).
Proof.
  intros input. rewrite lines_spans_of.
  eapply Forall_impl; [| apply (spans_of_bounds _ 0)].
  intros sp [H _]; lia.
Qed.

(** No two spans of [lines] are equal. *)
Lemma lines_NoDup : forall input, NoDup (lines input).
Proof.
  intros input.
  pose proof (lines_well_formed input) as W.
  assert (S : StronglySorted (fun a b => end_ a < start b) (lines input))
    by (rewrite lines_spans_of; apply spans_of_sorted).
  induction S as [| a spans Hs IH Ha]; constructor.
  - intros Hin. rewrite Forall_forall in Ha. specialize (Ha _ Hin).
    inversion W; subst. lia.
  - apply IH. now inversion W.
Qed.

(** ** The report *)

Lemma min_Zmin : forall a b, ErrorReport.min a b = Z.min a b.
Proof.
  intros a b. unfold ErrorReport.min.
  destruct (a <? b) eqn:E; [apply Z.ltb_lt in E | apply Z.ltb_ge in E]; lia.
Qed.

Lemma repeat_nonneg : forall (s : string) (count : number),
    0 <= count ->
    ErrorReport.repeat s count = ErrorReport.ret (repeat_ s (Z.to_nat count)).
Proof.
  intros s count H. unfold ErrorReport.repeat.
  now replace (count <? 0) with false by (symmetry; apply Z.ltb_ge; lia).
Qed.

Lemma repeat_negative : forall (s : string) (count : number),
    count < 0 ->
    ErrorReport.repeat s count
    = ErrorReport.throw
        (ErrorReport.ThrownRangeError
           ("Invalid count value: " +:+ show_number count)).
Proof.
  intros s count H. unfold ErrorReport.repeat.
  now replace (count <? 0) with true by (symmetry; apply Z.ltb_lt; lia).
Qed.

(** The line found for an offset within the input: its index in
    [lines] is the number of newlines before the offset, and the text
    under it is that line of the input. *)
Lemma find_line : forall input s,
    0 <= s <= Z.of_nat (String.length input) ->
    exists sp,
      List.find (ErrorReport.holds s) (lines input) = Some sp
      /\ nth_error (lines input)
           (count_newlines (substring 0 (Z.to_nat s) input)) = Some sp
      /\ ErrorReport.indexOf (lines input) sp
         = Z.of_nat (count_newlines (substring 0 (Z.to_nat s) input))
      /\ slice input (start sp) (end_ sp)
         = nth (count_newlines (substring 0 (Z.to_nat s) input))
             (split_lines input) EmptyString
      /\ 0 <= start sp <= s /\ s <= end_ sp.
Proof.
  intros input s Hs.
  destruct (split_lines_cons input) as (l & ls & E).
  destruct (layout_find (split_lines input) 0 s) as (sp & Hf & Hn & Hb).
  - apply split_lines_no_newline.
  - rewrite E; discriminate.
  - now rewrite join_split_lines.
  - rewrite join_split_lines, Z.sub_0_r in Hn.
    rewrite <- lines_spans_of in Hf, Hn.
    exists sp. split; [exact Hf | split; [exact Hn | split; [| split]]].
    + unfold ErrorReport.indexOf.
      rewrite (indexOf_from_sorted (lines input)) with
        (k := count_newlines (substring 0 (Z.to_nat s) input));
        [lia | | apply lines_well_formed | exact Hn].
      rewrite lines_spans_of. apply spans_of_sorted.
    + pose proof (spans_of_slices (split_lines input) EmptyString) as S.
      rewrite join_split_lines in S. simpl in S.
      rewrite <- lines_spans_of in S.
      apply (map_nth_error (fun sp => slice input (start sp) (end_ sp))) in Hn.
      rewrite S in Hn. symmetry. now apply nth_error_nth.
    + pose proof (spans_of_bounds (split_lines input) 0) as B.
      rewrite <- lines_spans_of, Forall_forall in B.
      apply nth_error_In in Hn. specialize (B _ Hn). lia.
Qed.

Lemma renderError_report : forall input filename e,
    0 <= start (ErrorReport.span e) <= Z.of_nat (String.length input) ->
    start (ErrorReport.span e) <= end_ (ErrorReport.span e) ->
    start (ErrorReport.span e) < ErrorReport.MAX_SAFE_INTEGER ->
    ErrorReport.renderError input filename e
    = (ErrorReport.report_lines input filename e, ErrorReport.Normal tt).
Proof.
  intros input filename [m [s en]] Hs Hse Hmax; simpl in Hs, Hse, Hmax.
  destruct (find_line input s Hs) as (sp & Hf & Hn & Hi & Ht & Hb & Hb').
  unfold ErrorReport.renderError, ErrorReport.report_lines,
    ErrorReport.line_number, ErrorReport.line_text, ErrorReport.line_start,
    ErrorReport.line_end, ErrorReport.message, ErrorReport.spanToSnippet.
  cbn [ErrorReport.span ErrorReport.msg start end_].
  set (k := count_newlines (substring 0 (Z.to_nat s) input)) in *.
  replace (s =? ErrorReport.MAX_SAFE_INTEGER) with false
    by (symmetry; apply Z.eqb_neq; lia).
  change (fun line : Span => (start line <=? s) && (end_ line >=? s))
    with (ErrorReport.holds s).
  rewrite Hf, Hi.
  replace (start sp =? ErrorReport.MAX_SAFE_INTEGER) with false
    by (symmetry; apply Z.eqb_neq; lia).
  replace (Z.of_nat (S k)) with (Z.of_nat k + 1) by lia.
  replace (Z.to_nat (Z.of_nat k + 1 - 1)) with k by lia.
  rewrite (nth_error_nth _ _ DUMMY_SPAN Hn), <- Ht, min_Zmin.
  rewrite !repeat_nonneg by lia.
  rewrite Nat2Z.id. reflexivity.
Qed.

(** X14: For an error whose span starts within the input (offsets 0 to
    [input.length], both included) and does not end before it starts,
    [renderError] prints the four lines of the report and returns.  The
    line reported is one more than the number of newlines before the
    start of the span, it is a line of the input, and it holds the start
    of the span. *)
Theorem renderError_in_bounds : forall input filename e,
    0 <= start (ErrorReport.span e) <= Z.of_nat (String.length input) ->
    start (ErrorReport.span e) <= end_ (ErrorReport.span e) ->
    start (ErrorReport.span e) < ErrorReport.MAX_SAFE_INTEGER ->
    ErrorReport.renderError input filename e
    = (ErrorReport.report_lines input filename e, ErrorReport.Normal tt)
    /\ 1 <= ErrorReport.line_number input (start (ErrorReport.span e))
         <= Z.of_nat (List.length (lines input))
    /\ ErrorReport.line_start input
         (ErrorReport.line_number input (start (ErrorReport.span e)))
       <= start (ErrorReport.span e)
       <= ErrorReport.line_end input
            (ErrorReport.line_number input (start (ErrorReport.span e))).
Proof.
  intros input filename e Hs Hse Hmax.
  split; [now apply renderError_report |].
  destruct (find_line input _ Hs) as (sp & _ & Hn & _ & _ & Hb & Hb').
  unfold ErrorReport.line_number, ErrorReport.line_start, ErrorReport.line_end.
  set (k := count_newlines _) in *.
  replace (Z.to_nat (Z.of_nat (S k) - 1)) with k by lia.
  rewrite (nth_error_nth _ _ DUMMY_SPAN Hn).
  assert (k < List.length (lines input))%nat
    by (apply nth_error_Some; rewrite Hn; discriminate).
  lia.
Qed.

Lemma renderError_in_bounds_witness :
  ErrorReport.renderError ("ab" +:+ NL +:+ "cde") "main.nil"
    (ErrorReport.mkCompilerError "bad" (mkSpan 4 6))
  = ([ "error: bad"; " --> main.nil:2"; "2 | cde"; "     ^^" ],
     ErrorReport.Normal tt).
Proof.
  apply (proj1 (renderError_in_bounds ("ab" +:+ NL +:+ "cde") "main.nil"
                  (ErrorReport.mkCompilerError "bad" (mkSpan 4 6))
                  ltac:(simpl; lia) ltac:(simpl; lia) ltac:(reflexivity))).
Defined.

(** X15: For an error whose span starts before the input or after its end
    (and is not the end-of-input sentinel), [renderError] prints nothing
    and throws the span-out-of-bounds error. *)
Theorem renderError_out_of_bounds : forall input filename e,
    start (ErrorReport.span e) < 0
    \/ Z.of_nat (String.length input) < start (ErrorReport.span e) ->
    start (ErrorReport.span e) <> ErrorReport.MAX_SAFE_INTEGER ->
    ErrorReport.renderError input filename e
    = ([], ErrorReport.Thrown
             (ErrorReport.ThrownError
                ("Span out of bounds: "
                   +:+ show_number (start (ErrorReport.span e)) +:+ ".."
                   +:+ show_number (end_ (ErrorReport.span e))))).
Proof.
  intros input filename [m [s en]] Hs Hmax; simpl in Hs, Hmax.
  unfold ErrorReport.renderError. cbn [ErrorReport.span start end_].
  replace (s =? ErrorReport.MAX_SAFE_INTEGER) with false
    by (symmetry; now apply Z.eqb_neq).
  rewrite find_all_false; [reflexivity |].
  rewrite lines_spans_of.
  eapply Forall_impl; [| apply (spans_of_bounds _ 0)].
  rewrite join_split_lines. intros sp [B1 B2]. cbv beta.
  destruct Hs as [Hs | Hs].
  - replace (start sp <=? s) with false
      by (symmetry; apply Z.leb_gt; lia).
    reflexivity.
  - replace (end_ sp >=? s) with false
      by (symmetry; rewrite Z.geb_leb; apply Z.leb_gt; lia).
    apply andb_false_r.
Qed.

Lemma renderError_out_of_bounds_witness :
  ErrorReport.renderError "ab" "main.nil"
    (ErrorReport.mkCompilerError "bad" (mkSpan 3 4))
  = ([], ErrorReport.Thrown (ErrorReport.ThrownError "Span out of bounds: 3..4")).
Proof.
  apply (renderError_out_of_bounds "ab" "main.nil"
           (ErrorReport.mkCompilerError "bad" (mkSpan 3 4))).
  - right; simpl; lia.
  - discriminate.
Defined.

Lemma nth_error_last {A} : forall (l : list A) (d : A),
    l <> [] -> nth_error l (List.length l - 1) = Some (last l d).
Proof.
  induction l as [| x l IH]; intros d H; [contradiction |].
  destruct l as [| y l]; [reflexivity |].
  replace (List.length (x :: y :: l) - 1)%nat
    with (S (List.length (y :: l) - 1)) by (simpl; lia).
  apply (IH d). discriminate.
Qed.

(** X16: For an error at the end-of-input sentinel, [renderError] prints the
    message, the file with the number of the last line, and the last
    line, and then throws a [RangeError]: the underline is asked for with
    a negative length. *)
Theorem renderError_end_of_input : forall input filename e,
    start (ErrorReport.span e) = ErrorReport.MAX_SAFE_INTEGER ->
    Z.of_nat (String.length input) < ErrorReport.MAX_SAFE_INTEGER ->
    exists range_message,
      ErrorReport.renderError input filename e
      = ([ "error: " +:+ ErrorReport.msg e;
           " --> " +:+ filename +:+ ":"
             +:+ show_number (Z.of_nat (List.length (lines input)));
           show_number (Z.of_nat (List.length (lines input))) +:+ " | "
             +:+ ErrorReport.line_text input
                   (Z.of_nat (List.length (lines input))) ],
         ErrorReport.Thrown (ErrorReport.ThrownRangeError range_message)).
Proof.
  intros input filename [m [s en]] Hs Hlen; simpl in Hs; subst s.
  pose proof (lines_well_formed input) as W.
  assert (So : StronglySorted (fun a b => end_ a < start b) (lines input))
    by (rewrite lines_spans_of; apply spans_of_sorted).
  pose proof (spans_of_bounds (split_lines input) 0) as B.
  rewrite <- lines_spans_of, join_split_lines in B.
  pose proof (spans_of_slices (split_lines input) EmptyString) as S.
  rewrite join_split_lines in S. simpl in S. rewrite <- lines_spans_of in S.
  assert (Hne : lines input <> []).
  { rewrite lines_spans_of. destruct (split_lines_cons input) as (l & ls & E).
    rewrite E. discriminate. }
  pose proof (nth_error_last (lines input) DUMMY_SPAN Hne) as Hn.
  set (sp := last (lines input) DUMMY_SPAN) in *.
  set (k := (List.length (lines input) - 1)%nat) in *.
  assert (Hk : Z.of_nat (List.length (lines input)) = Z.of_nat k + 1).
  { destruct (lines input); [contradiction | subst k; simpl List.length; lia]. }
  pose proof (proj1 (Forall_forall _ _) B sp (nth_error_In _ _ Hn)) as Bsp.
  cbv beta in Bsp.
  unfold ErrorReport.renderError, ErrorReport.message,
    ErrorReport.spanToSnippet, ErrorReport.line_text.
  cbn [ErrorReport.span ErrorReport.msg start end_]. cbv zeta.
  change (List.length (lines input) - 1)%nat with k.
  rewrite Z.eqb_refl, Hn.
  unfold ErrorReport.indexOf.
  rewrite (indexOf_from_sorted _ So W k sp 0 Hn), Z.add_0_l, Hk.
  replace (start sp =? ErrorReport.MAX_SAFE_INTEGER) with false
    by (symmetry; apply Z.eqb_neq; lia).
  replace (Z.to_nat (Z.of_nat k + 1 - 1)) with k by lia.
  apply (map_nth_error (fun sp => slice input (start sp) (end_ sp))) in Hn.
  rewrite S in Hn. rewrite (nth_error_nth _ _ EmptyString Hn).
  rewrite !repeat_nonneg by lia.
  rewrite repeat_negative by (rewrite min_Zmin; lia).
  eexists. reflexivity.
Qed.

Lemma renderError_end_of_input_witness :
  exists range_message,
    ErrorReport.renderError ("ab" +:+ NL +:+ "cde") "main.nil"
      (ErrorReport.mkCompilerError "eof"
         (mkSpan ErrorReport.MAX_SAFE_INTEGER ErrorReport.MAX_SAFE_INTEGER))
    = ([ "error: eof"; " --> main.nil:2"; "2 | cde" ],
       ErrorReport.Thrown (ErrorReport.ThrownRangeError range_message)).
Proof.
  apply (renderError_end_of_input ("ab" +:+ NL +:+ "cde") "main.nil"
           (ErrorReport.mkCompilerError "eof"
              (mkSpan ErrorReport.MAX_SAFE_INTEGER ErrorReport.MAX_SAFE_INTEGER)));
    reflexivity.
Defined.

(** X17: [withErrorPrinter] leaves a callback that returns alone and lets
    every thrown value that is not a [CompilerError] through unchanged.
    A [CompilerError] whose span starts at an offset from 0 to
    [input.length], below [Number.MAX_SAFE_INTEGER], and does not end
    before it starts, is turned into the four printed lines of its
    report, after which [withErrorPrinter] returns normally.  What the
    callback printed stays in front. *)
Theorem withErrorPrinter_outcomes : forall (input filename : string) (out : list string),
    ErrorReport.withErrorPrinter input filename (out, ErrorReport.Normal tt)
    = (out, ErrorReport.Normal tt)
    /\ (forall message_,
           ErrorReport.withErrorPrinter input filename
             (out, ErrorReport.Thrown (ErrorReport.ThrownError message_))
           = (out, ErrorReport.Thrown (ErrorReport.ThrownError message_))
           /\ ErrorReport.withErrorPrinter input filename
                (out, ErrorReport.Thrown (ErrorReport.ThrownRangeError message_))
              = (out, ErrorReport.Thrown (ErrorReport.ThrownRangeError message_)))
    /\ (forall e,
           0 <= start (ErrorReport.span e) <= Z.of_nat (String.length input) ->
           start (ErrorReport.span e) <= end_ (ErrorReport.span e) ->
           start (ErrorReport.span e) < ErrorReport.MAX_SAFE_INTEGER ->
           ErrorReport.withErrorPrinter input filename
             (out, ErrorReport.Thrown (ErrorReport.ThrownCompilerError e))
           = (out ++ ErrorReport.report_lines input filename e,
              ErrorReport.Normal tt)).
Proof.
  intros input filename out. split; [reflexivity | split].
  - intros message_; split; reflexivity.
  - intros e Hs Hse Hmax. unfold ErrorReport.withErrorPrinter.
    now rewrite renderError_report.
Qed.

Lemma withErrorPrinter_outcomes_witness :
  ErrorReport.withErrorPrinter ("ab" +:+ NL +:+ "cde") "main.nil"
    (["checking"],
     ErrorReport.Thrown
       (ErrorReport.ThrownCompilerError
          (ErrorReport.mkCompilerError "bad" (mkSpan 4 6))))
  = ([ "checking"; "error: bad"; " --> main.nil:2"; "2 | cde"; "     ^^" ],
     ErrorReport.Normal tt).
Proof.
  apply (proj2 (proj2 (withErrorPrinter_outcomes
                         ("ab" +:+ NL +:+ "cde") "main.nil" ["checking"]))
           (ErrorReport.mkCompilerError "bad" (mkSpan 4 6)));
    [simpl; lia | simpl; lia | reflexivity].
Defined.

(** X18: A [todo] inside [withErrorPrinter] is reported on line 1, whatever the
    input: the message with the [TODO: ] prefix, the file and line 1, the
    first line of the input, and an underline without any caret. *)
Theorem withErrorPrinter_todo : forall input filename msg_ : string,
    ErrorReport.withErrorPrinter input filename (ErrorReport.todo msg_)
    = ([ "error: TODO: " +:+ msg_;
         " --> " +:+ filename +:+ ":1";
         "1 | " +:+ nth 0 (split_lines input) EmptyString;
         "    " ],
       ErrorReport.Normal tt).
Proof.
  intros input filename msg_.
  unfold ErrorReport.todo, ErrorReport.throw, ErrorReport.withErrorPrinter.
  rewrite renderError_report; cbn [ErrorReport.span start end_];
    [| lia | lia | reflexivity].
  unfold ErrorReport.report_lines, ErrorReport.line_number,
    ErrorReport.line_text, ErrorReport.line_start, ErrorReport.line_end.
  cbn [ErrorReport.span ErrorReport.msg start end_].
  assert (P : substring 0 (Z.to_nat 0) input = EmptyString)
    by (destruct input; reflexivity).
  rewrite P. simpl count_newlines.
  change (Z.to_nat (Z.of_nat 1 - 1)) with 0%nat.
  rewrite lines_spans_of.
  destruct (split_lines_cons input) as (l & ls & E). rewrite E.
  cbn [spans_of nth start end_].
  replace (Z.min 0 (0 + Z.of_nat (String.length l)) - 0) with 0 by lia.
  reflexivity.
Qed.
